(** * The worker-thread dispatcher of oneTBB: [src/tbb/thread_dispatcher.h]

    A shallow embedding of class [thread_dispatcher]: the registry of
    clients partitioned into [num_priority_levels] intrusive lists, the
    round-robin cursor [my_next_client], the selection of the next client
    for an idle worker, registration and ABA-safe unregistration, the worker
    loop [process] and the demand call into the RML server.

    Pointers to clients are addresses; the null pointer is [None].  A call
    either returns ([Done]), leaves the behaviour the C++ standard defines
    ([Fault]: a dangling pointer is dereferenced, an array is indexed out of
    range, an assertion of the source fails), or exhausts the iteration
    budget given to its loops ([Timeout]). *)

From Stdlib Require Import ZArith Lia.
From stdpp Require Import base option list gmap.

Open Scope Z_scope.
Open Scope nat_scope.

(** ** Outcomes *)

Inductive outcome (A : Type) : Type :=
| Done (a : A)
| Fault
| Timeout.
Arguments Done {A} a.
Arguments Fault {A}.
Arguments Timeout {A}.

#[global] Instance outcome_ret : MRet outcome := @Done.
#[global] Instance outcome_bind : MBind outcome := λ A B f m,
  match m with
  | Done a => f a
  | Fault => Fault
  | Timeout => Timeout
  end.

(** [__TBB_ASSERT(b, ...)] *)
Definition tbb_assert (b : bool) : outcome unit :=
  if b then Done tt else Fault.

(** ** Clients *)

(** [thread_dispatcher_client*]; [nullptr] is [None] of [option addr]. *)
Abbreviation addr := positive.

(** Modelled from the spec: the arena behind a client (arena.h is not part
    of the sources) is seen through three numbers only: its static priority
    level, its reference count and its pending worker demand. *)
Record arena : Type := {
  arena_priority_level : nat;
  arena_references : nat;
  arena_num_workers_requested : nat
}.

(** Modelled from the spec: class [thread_dispatcher_client] (clients.h is
    not part of the sources): a client carries its arena and the 64-bit ABA
    epoch it was stamped with at creation. *)
Record thread_dispatcher_client : Type := {
  my_arena : arena;
  my_aba_epoch : Z
}.

Definition priority_level (c : thread_dispatcher_client) : nat :=
  arena_priority_level (my_arena c).
Definition get_aba_epoch (c : thread_dispatcher_client) : Z :=
  my_aba_epoch c.
Definition references (c : thread_dispatcher_client) : nat :=
  arena_references (my_arena c).
Definition num_workers_requested (c : thread_dispatcher_client) : nat :=
  arena_num_workers_requested (my_arena c).

(** Modelled from the spec: [try_join] on the client object, "decrementing a
    counter atomically from >0": the bool tells whether a worker slot was
    reserved, the client is the object after the call. *)
Definition client_try_join (c : thread_dispatcher_client)
  : bool * thread_dispatcher_client :=
  match num_workers_requested c with
  | 0 => (false, c)
  | S d =>
      (true,
       {| my_arena :=
            {| arena_priority_level := priority_level c;
               arena_references := references c;
               arena_num_workers_requested := d |};
          my_aba_epoch := my_aba_epoch c |})
  end.

(** ** Intrusive lists *)

(** Modelled from the spec: [intrusive_list<thread_dispatcher_client>]
    (intrusive_list.h is not part of the sources), an ordered collection of
    client nodes.  The list is the sequence of the addresses of its nodes;
    an iterator is [Some] node or [None] for [end()]. *)
Module intrusive_list.

Definition empty (l : list addr) : bool :=
  match l with
  | [] => true
  | _ :: _ => false
  end.

Definition begin (l : list addr) : option addr := head l.

(** [++it] for an iterator at node [it] of [l]. *)
Fixpoint next (l : list addr) (it : addr) : outcome (option addr) :=
  match l with
  | [] => Fault
  | x :: l' => if decide (x = it) then Done (head l') else next l' it
  end.

Definition push_front (val : addr) (l : list addr) : list addr := val :: l.

(** [remove(val)]: unlinks the node, which has to be in the list. *)
Fixpoint remove (val : addr) (l : list addr) : outcome (list addr) :=
  match l with
  | [] => Fault
  | x :: l' =>
      if decide (x = val) then Done l'
      else l'' ← remove val l'; mret (x :: l'')
  end.

End intrusive_list.

(** ** The dispatcher *)

Definition num_priority_levels : nat := 3.

Record thread_dispatcher : Type := {
  (** [client_list_type my_client_list[num_priority_levels]] *)
  my_client_list : list (list addr);
  (** [thread_dispatcher_client* my_next_client] *)
  my_next_client : option addr;
  (** [std::atomic<std::uint64_t> my_clients_aba_epoch] *)
  my_clients_aba_epoch : Z;
  (** [rml::tbb_server* my_server], seen through the deltas it was sent,
      the latest first *)
  my_server : list Z;
  (** the client objects that exist: the cache-aligned storage handed out by
      [create_client] and not yet given back *)
  client_storage : gmap addr thread_dispatcher_client
}.

Definition set_client_list (l : list (list addr)) (s : thread_dispatcher) :=
  {| my_client_list := l;
     my_next_client := my_next_client s;
     my_clients_aba_epoch := my_clients_aba_epoch s;
     my_server := my_server s;
     client_storage := client_storage s |}.

Definition set_next_client (p : option addr) (s : thread_dispatcher) :=
  {| my_client_list := my_client_list s;
     my_next_client := p;
     my_clients_aba_epoch := my_clients_aba_epoch s;
     my_server := my_server s;
     client_storage := client_storage s |}.

Definition set_aba_epoch (e : Z) (s : thread_dispatcher) :=
  {| my_client_list := my_client_list s;
     my_next_client := my_next_client s;
     my_clients_aba_epoch := e;
     my_server := my_server s;
     client_storage := client_storage s |}.

Definition set_server (srv : list Z) (s : thread_dispatcher) :=
  {| my_client_list := my_client_list s;
     my_next_client := my_next_client s;
     my_clients_aba_epoch := my_clients_aba_epoch s;
     my_server := srv;
     client_storage := client_storage s |}.

Definition set_storage (m : gmap addr thread_dispatcher_client)
    (s : thread_dispatcher) :=
  {| my_client_list := my_client_list s;
     my_next_client := my_next_client s;
     my_clients_aba_epoch := my_clients_aba_epoch s;
     my_server := my_server s;
     client_storage := m |}.

(** The dispatcher right after its constructor. *)
Definition new_dispatcher : thread_dispatcher :=
  {| my_client_list := replicate num_priority_levels [];
     my_next_client := None;
     my_clients_aba_epoch := 0%Z;
     my_server := [];
     client_storage := ∅ |}.

(** [*p]: the object behind a client pointer. *)
Definition deref (s : thread_dispatcher) (p : addr)
  : outcome thread_dispatcher_client :=
  match client_storage s !! p with
  | Some c => Done c
  | None => Fault
  end.

(** [clients[idx]] for an array of [num_priority_levels] lists. *)
Definition bucket (clients : list (list addr)) (idx : nat)
  : outcome (list addr) :=
  match clients !! idx with
  | Some b => Done b
  | None => Fault
  end.

(** [t.try_join()] on the client stored at [t]. *)
Definition try_join (t : addr) (s : thread_dispatcher)
  : outcome (bool * thread_dispatcher) :=
  c ← deref s t;
  match client_try_join c with
  | (true, c') => mret (true, set_storage (<[t := c']> (client_storage s)) s)
  | (false, _) => mret (false, s)
  end.

(** *** [select_next_client] *)

(** The [for] loop of [select_next_client] over the indices [idxs]:
    [Some c] when it returns from inside the loop, [None] when it falls
    through. *)
Fixpoint select_next_client_loop (clients : list (list addr))
    (idxs : list nat) : outcome (option addr) :=
  match idxs with
  | [] => mret None
  | idx :: rest =>
      b ← bucket clients idx;
      if intrusive_list.empty b
      then select_next_client_loop clients rest
      else mret (intrusive_list.begin b)
  end.

Definition select_next_client (hint : option addr) (s : thread_dispatcher)
  : outcome (option addr) :=
  next_client_priority_level ←
    match hint with
    | Some h => c ← deref s h; mret (priority_level c)
    | None => mret num_priority_levels
    end;
  found ← select_next_client_loop (my_client_list s)
             (seq 0 next_client_priority_level);
  match found with
  | Some c => mret (Some c)
  | None => mret hint
  end.

(** *** [create_client], [register_client], [insert_client],
        [remove_client] *)

(** [p] is the block returned by [cache_aligned_allocate]: an allocator
    never hands out storage that is in use. *)
Definition create_client (p : addr) (a : arena) (s : thread_dispatcher)
  : outcome (addr * thread_dispatcher) :=
  match client_storage s !! p with
  | Some _ => Fault
  | None =>
      mret (p, set_storage
                 (<[p := {| my_arena := a;
                            my_aba_epoch := my_clients_aba_epoch s |}]>
                    (client_storage s)) s)
  end.

Definition insert_client (client : addr) (s : thread_dispatcher)
  : outcome thread_dispatcher :=
  c ← deref s client;
  _ ← tbb_assert (priority_level c <? num_priority_levels);
  b ← bucket (my_client_list s) (priority_level c);
  let s1 :=
    set_client_list
      (<[priority_level c := intrusive_list.push_front client b]>
         (my_client_list s)) s in
  _ ← match my_next_client s1 with
      | None => mret tt
      | Some n =>
          cn ← deref s1 n;
          tbb_assert (priority_level cn <? num_priority_levels)
      end;
  nxt ← select_next_client (my_next_client s1) s1;
  mret (set_next_client nxt s1).

Definition register_client (client : addr) (s : thread_dispatcher)
  : outcome thread_dispatcher :=
  insert_client client s.

Definition remove_client (client : addr) (s : thread_dispatcher)
  : outcome thread_dispatcher :=
  c ← deref s client;
  _ ← tbb_assert (priority_level c <? num_priority_levels);
  b ← bucket (my_client_list s) (priority_level c);
  b' ← intrusive_list.remove client b;
  let s1 := set_client_list (<[priority_level c := b']> (my_client_list s)) s in
  let s2 :=
    if decide (my_next_client s1 = Some client)
    then set_next_client None s1
    else s1 in
  nxt ← select_next_client (my_next_client s2) s2;
  mret (set_next_client nxt s2).

(** *** [try_unregister_client] *)

(** [++my_clients_aba_epoch] on a 64-bit unsigned counter. *)
Definition incr_epoch (e : Z) : Z := ((e + 1) mod 2 ^ 64)%Z.

(** The [for] loop of [try_unregister_client] over the nodes [its] of
    [my_client_list[priority]], with the rest of the function. *)
Fixpoint try_unregister_client_loop (its : list addr) (client : addr)
    (aba_epoch : Z) (s : thread_dispatcher)
  : outcome (bool * thread_dispatcher) :=
  match its with
  | [] => mret (false, s)
  | it :: rest =>
      if decide (client = it) then
        c ← deref s it;
        if (get_aba_epoch c =? aba_epoch)%Z then
          if (references c =? 0) && (num_workers_requested c =? 0) then
            s1 ← remove_client client s;
            let s2 := set_aba_epoch (incr_epoch (my_clients_aba_epoch s1)) s1 in
            (* client->~thread_dispatcher_client();
               cache_aligned_deallocate(client); *)
            let s3 := set_storage (delete client (client_storage s2)) s2 in
            mret (true, s3)
          else mret (false, s)
        else mret (false, s)
      else try_unregister_client_loop rest client aba_epoch s
  end.

Definition try_unregister_client (client : addr) (aba_epoch : Z)
    (priority : nat) (s : thread_dispatcher)
  : outcome (bool * thread_dispatcher) :=
  b ← bucket (my_client_list s) priority;
  try_unregister_client_loop b client aba_epoch s.

(** *** [is_client_in_list], [is_client_alive] *)

Fixpoint is_client_in_list (clients : list addr) (client : addr) : bool :=
  match clients with
  | [] => false
  | it :: rest =>
      if decide (client = it) then true else is_client_in_list rest client
  end.

Fixpoint is_client_alive_loop (clients : list (list addr)) (idxs : list nat)
    (client : addr) : outcome bool :=
  match idxs with
  | [] => mret false
  | idx :: rest =>
      b ← bucket clients idx;
      if is_client_in_list b client then mret true
      else is_client_alive_loop clients rest client
  end.

Definition is_client_alive (client : option addr) (s : thread_dispatcher)
  : outcome bool :=
  match client with
  | None => mret false
  | Some c =>
      is_client_alive_loop (my_client_list s) (seq 0 num_priority_levels) c
  end.

(** *** [client_in_need] *)

(** Loops that the source does not bound run on an iteration budget: a loop
    that has not left after [budget] iterations is a [Timeout].  Every loop
    gets the full budget when it is entered. *)

(** [do { ++curr_priority_level %= num_priority_levels; }
     while (clients[curr_priority_level].empty());]
    The level is below [num_priority_levels] whenever the loop is entered
    (the bucket at that level was just read), so the 32-bit increment does
    not wrap. *)
Fixpoint next_nonempty_level (fuel : nat) (clients : list (list addr))
    (curr_priority_level : nat) : outcome nat :=
  match fuel with
  | 0 => Timeout
  | S fuel' =>
      let lvl := (curr_priority_level + 1) mod num_priority_levels in
      b ← bucket clients lvl;
      if intrusive_list.empty b
      then next_nonempty_level fuel' clients lvl
      else mret lvl
  end.

(** [if (++it == clients[curr_priority_level].end()) { do ... while ...;
         it = clients[curr_priority_level].begin(); }]
    for the iterator at node [t]: the iterator and the level afterwards. *)
Definition advance_iterator (budget : nat) (clients : list (list addr))
    (t : addr) (curr_priority_level : nat) : outcome (option addr * nat) :=
  b ← bucket clients curr_priority_level;
  it1 ← intrusive_list.next b t;
  match it1 with
  | Some _ => mret (it1, curr_priority_level)
  | None =>
      lvl ← next_nonempty_level budget clients curr_priority_level;
      b' ← bucket clients lvl;
      mret (intrusive_list.begin b', lvl)
  end.

(** The outer [do ... while (it != hint)] of [client_in_need(clients, hint)],
    entered with the iterator [it] in the list of level
    [curr_priority_level]. *)
Fixpoint client_in_need_loop (budget fuel : nat) (clients : list (list addr))
    (hint : addr) (it : option addr) (curr_priority_level : nat)
    (s : thread_dispatcher) : outcome (option addr * thread_dispatcher) :=
  match fuel with
  | 0 => Timeout
  | S fuel' =>
      t ← match it with Some t => mret t | None => Fault end;
      '(it2, lvl2) ← advance_iterator budget clients t curr_priority_level;
      '(joined, s') ← try_join t s;
      if (joined : bool) then mret (Some t, s')
      else if decide (it2 = Some hint) then mret (None, s')
      else client_in_need_loop budget fuel' clients hint it2 lvl2 s'
  end.

(** [client_in_need(client_list_type* clients, thread_dispatcher_client* hint)] *)
Definition client_in_need_from (budget : nat) (clients : list (list addr))
    (hint : option addr) (s : thread_dispatcher)
  : outcome (option addr * thread_dispatcher) :=
  hint' ← select_next_client hint s;
  match hint' with
  | None => mret (None, s)
  | Some h =>
      c ← deref s h;
      let curr_priority_level := priority_level c in
      client_in_need_loop budget budget clients h (Some h)
        curr_priority_level s
  end.

(** [client_in_need(thread_dispatcher_client* prev)] *)
Definition client_in_need (budget : nat) (prev : option addr)
    (s : thread_dispatcher) : outcome (option addr * thread_dispatcher) :=
  alive ← is_client_alive prev s;
  if (alive : bool)
  then client_in_need_from budget (my_client_list s) prev s
  else client_in_need_from budget (my_client_list s) (my_next_client s) s.

(** *** [adjust_job_count_estimate] *)

Definition adjust_job_count_estimate (delta : Z) (s : thread_dispatcher)
  : thread_dispatcher :=
  if decide (delta ≠ 0%Z)
  then set_server (delta :: my_server s) s
  else s.

(** *** [process] *)

(** [thread_data], as far as the dispatcher uses it. *)
Record thread_data : Type := {
  my_last_client : option addr
}.

(** What a worker does outside the dispatcher during one activation. *)
Inductive event : Type :=
| EvProcess (client : addr)   (* client->process(td) *)
| EvYield.                    (* yield() *)

Section process.

(** The effect of [client->process(td)] (the arena runs tasks with this
    worker) and of [yield()] (other threads run) on what the dispatcher
    sees. *)
Variable client_process : addr → thread_dispatcher → thread_dispatcher.
Variable yield : thread_dispatcher → thread_dispatcher.

Variable budget : nat.

(** [while ((client = client_in_need(client))) { ... }] *)
Fixpoint process_while (fuel : nat) (client : option addr)
    (td : thread_data) (s : thread_dispatcher)
  : outcome (thread_data * thread_dispatcher * list event) :=
  match fuel with
  | 0 => Timeout
  | S fuel' =>
      '(client', s1) ← client_in_need budget client s;
      match client' with
      | None => mret (td, s1, [])
      | Some c =>
          let td1 := {| my_last_client := Some c |} in
          let s2 := client_process c s1 in
          '(td2, s3, evs) ← process_while fuel' (Some c) td1 s2;
          mret (td2, s3, EvProcess c :: evs)
      end
  end.

(** [for (int i = 0; i < 2; ++i) { while ...; if (!i) yield(); }]
    over the values [passes] of [i]; the [while] loop is left with
    [client == nullptr]. *)
Fixpoint process_for (passes : list nat) (client : option addr)
    (td : thread_data) (s : thread_dispatcher)
  : outcome (thread_data * thread_dispatcher * list event) :=
  match passes with
  | [] => mret (td, s, [])
  | i :: rest =>
      '(td1, s1, evs1) ← process_while budget client td s;
      let '(s2, evs2) :=
        if decide (i = 0) then (yield s1, [EvYield]) else (s1, []) in
      '(td3, s3, evs3) ← process_for rest None td1 s2;
      mret (td3, s3, evs1 ++ evs2 ++ evs3)
  end.

Definition process (td : thread_data) (s : thread_dispatcher)
  : outcome (thread_data * thread_dispatcher * list event) :=
  process_for (seq 0 2) (my_last_client td) td s.

End process.

(** * Properties *)

(** ** Running outcomes *)

Lemma bind_Done {A B} (m : outcome A) (f : A → outcome B) (b : B) :
  m ≫= f = Done b → ∃ a, m = Done a ∧ f a = Done b.
Proof. destruct m as [a| |]; simpl; intros H; try discriminate. by exists a. Qed.

Lemma bind_Done_l {A B} (m : outcome A) (f : A → outcome B) (a : A) :
  m = Done a → m ≫= f = f a.
Proof. by intros ->. Qed.

(** Splits the hypothesis [H : m ≫= f = Done b] into the run of [m] and the
    run of the continuation. *)
Ltac bind_inv H :=
  let a := fresh "a" in
  let Ha := fresh "Hrun" in
  apply bind_Done in H as (a & Ha & H); simpl in H;
  unfold mret, outcome_ret in H.

(** ** The registry invariant *)

(** The clients that are registered, in bucket order. *)
Definition registered (s : thread_dispatcher) : list addr :=
  concat (my_client_list s).

(** The priority level of the client object stored at [p]. *)
Definition level_of (s : thread_dispatcher) (p : addr) : option nat :=
  priority_level <$> client_storage s !! p.

(** The pending worker demand of the client object stored at [p]; nothing is
    wanted where no client is stored. *)
Definition demand (s : thread_dispatcher) (p : addr) : nat :=
  from_option num_workers_requested 0 (client_storage s !! p).

(** Every node of the list at level [lb.1] is a stored client of that
    level. *)
Definition bucket_stored (s : thread_dispatcher) (lb : nat * list addr)
  : Prop :=
  Forall (λ p, level_of s p = Some lb.1) lb.2.

(** The round-robin cursor is null or a registered client. *)
Definition cursor_live (s : thread_dispatcher) : Prop :=
  match my_next_client s with
  | None => True
  | Some n => n ∈ registered s
  end.

(** The invariant of the registry: [num_priority_levels] lists, a client in
    at most one list and there once, every registered client stored and in
    the list of its own priority level, the cursor live. *)
Definition wf (s : thread_dispatcher) : Prop :=
  length (my_client_list s) = num_priority_levels ∧
  NoDup (registered s) ∧
  Forall (bucket_stored s)
    (zip (seq 0 num_priority_levels) (my_client_list s)) ∧
  cursor_live s.

#[global] Instance bucket_stored_dec s lb : Decision (bucket_stored s lb).
Proof. unfold bucket_stored. apply _. Defined.

#[global] Instance cursor_live_dec s : Decision (cursor_live s).
Proof. unfold cursor_live. destruct (my_next_client s); apply _. Defined.

#[global] Instance wf_dec s : Decision (wf s).
Proof. unfold wf. apply _. Defined.

Lemma elem_of_concat (ls : list (list addr)) (p : addr) :
  p ∈ concat ls ↔ ∃ l, l ∈ ls ∧ p ∈ l.
Proof.
  induction ls as [|l ls IH]; simpl.
  - split; [by intros ?%elem_of_nil|]. by intros (l & ?%elem_of_nil & _).
  - rewrite elem_of_app, IH. split.
    + intros [Hp|(l' & Hl' & Hp)].
      * exists l. split; [left|done].
      * exists l'. split; [by right|done].
    + intros (l' & Hl' & Hp). apply elem_of_cons in Hl' as [->|Hl'].
      * by left.
      * right. by exists l'.
Qed.

(** The invariant with the three lists named. *)
Lemma wf_buckets s :
  wf s ↔
  ∃ b0 b1 b2,
    my_client_list s = [b0; b1; b2] ∧
    NoDup (b0 ++ b1 ++ b2) ∧
    Forall (λ p, level_of s p = Some 0) b0 ∧
    Forall (λ p, level_of s p = Some 1) b1 ∧
    Forall (λ p, level_of s p = Some 2) b2 ∧
    cursor_live s.
Proof.
  unfold wf, registered. split.
  - intros (Hlen & Hnd & Hst & Hcur).
    destruct (my_client_list s) as [|b0 [|b1 [|b2 [|]]]] eqn:E;
      try discriminate.
    exists b0, b1, b2. simpl in Hnd. rewrite app_nil_r in Hnd.
    unfold num_priority_levels in Hst. simpl in Hst.
    apply Forall_cons in Hst as [H0 Hst].
    apply Forall_cons in Hst as [H1 Hst].
    apply Forall_cons in Hst as [H2 _].
    by repeat split.
  - intros (b0 & b1 & b2 & E & Hnd & H0 & H1 & H2 & Hcur).
    rewrite E. simpl. rewrite app_nil_r. repeat split; try done.
    by repeat constructor.
Qed.

Lemma new_dispatcher_wf : wf new_dispatcher.
Proof. apply wf_buckets. exists [], [], []. repeat split; constructor. Qed.

(** A registered client is stored, at a level below
    [num_priority_levels], and in the list of that level. *)
Lemma wf_registered s p :
  wf s → p ∈ registered s →
  ∃ c b, client_storage s !! p = Some c ∧
         priority_level c < num_priority_levels ∧
         my_client_list s !! priority_level c = Some b ∧ p ∈ b.
Proof.
  intros (b0 & b1 & b2 & E & Hnd & H0 & H1 & H2 & _)%wf_buckets.
  unfold registered, level_of, num_priority_levels. rewrite E. simpl.
  rewrite app_nil_r, !elem_of_app.
  rewrite Forall_forall in H0, H1, H2.
  intros [Hp|[Hp|Hp]];
    [ specialize (H0 _ Hp) as HH | specialize (H1 _ Hp) as HH
    | specialize (H2 _ Hp) as HH ];
    unfold level_of in HH;
    destruct (client_storage s !! p) as [c|]; simplify_eq/=;
    exists c; eexists; (split; [done|]); (split; [lia|]);
    match goal with H : priority_level c = _ |- _ => rewrite H end; done.
Qed.

(** ** [select_next_client] *)

(** "The first client of the first non-empty bucket among the levels
    [lo], ..., [hi - 1] is [c]": some level [idx] of the range holds a list
    that starts with [c], and every level of the range before [idx] holds
    the empty list. *)
Definition first_client_in (clients : list (list addr)) (lo hi : nat)
    (c : addr) : Prop :=
  ∃ idx rest,
    lo ≤ idx < hi ∧ clients !! idx = Some (c :: rest) ∧
    ∀ j, lo ≤ j < idx → clients !! j = Some [].

(** "No bucket among the levels [lo], ..., [hi - 1] holds a client." *)
Definition all_empty_in (clients : list (list addr)) (lo hi : nat) : Prop :=
  ∀ j, lo ≤ j < hi → clients !! j = Some [].

Lemma select_next_client_loop_spec clients n : ∀ i,
  i + n ≤ length clients →
  ∃ r, select_next_client_loop clients (seq i n) = Done r ∧
       match r with
       | Some c => first_client_in clients i (i + n) c
       | None => all_empty_in clients i (i + n)
       end.
Proof.
  induction n as [|n IH]; intros i Hlen; simpl.
  - exists None. split; [done|]. intros j Hj. lia.
  - destruct (lookup_lt_is_Some_2 clients i) as [b Hb]; [lia|].
    unfold bucket. rewrite Hb. simpl.
    destruct b as [|c rest]; simpl.
    + destruct (IH (S i)) as (r & Hr & Hspec); [lia|].
      exists r. split; [done|]. destruct r as [c|].
      * destruct Hspec as (idx & rest & Hidx & Hl & Hbefore).
        exists idx, rest. repeat split; [lia|lia|done|].
        intros j Hj. destruct (decide (j = i)) as [->|]; [done|].
        apply Hbefore. lia.
      * intros j Hj. destruct (decide (j = i)) as [->|]; [done|].
        apply Hspec. lia.
    + exists (Some c). split; [done|]. exists i, rest.
      repeat split; [lia|lia|done|]. intros j Hj. lia.
Qed.

(** The level up to which [select_next_client] scans: all levels for the
    null hint, the levels above the hint's own for a hint that points to a
    client object. *)
Definition start_level (s : thread_dispatcher) (hint : option addr)
  : option nat :=
  match hint with
  | None => Some num_priority_levels
  | Some h => level_of s h
  end.

(** The selector in terms of the range it scans. *)
Lemma select_next_client_range s hint lvl :
  length (my_client_list s) = num_priority_levels →
  start_level s hint = Some lvl →
  lvl ≤ num_priority_levels →
  ∃ r, select_next_client hint s = Done r ∧
       ((∃ c, first_client_in (my_client_list s) 0 lvl c ∧ r = Some c) ∨
        (all_empty_in (my_client_list s) 0 lvl ∧ r = hint)).
Proof.
  intros Hlen Hstart Hlvl. unfold select_next_client.
  assert (match hint with
          | Some h => c ← deref s h; mret (priority_level c)
          | None => mret num_priority_levels
          end = Done lvl) as ->.
  { destruct hint as [h|]; simpl in Hstart.
    - unfold level_of, deref in *.
      destruct (client_storage s !! h); simplify_eq/=. done.
    - by simplify_eq. }
  simpl.
  destruct (select_next_client_loop_spec (my_client_list s) lvl 0)
    as (r & -> & Hspec); [lia|].
  simpl. destruct r as [c|]; eexists; (split; [done|]).
  - left. by exists c.
  - by right.
Qed.

(** C1. [select_next_client(hint)] scans the buckets in increasing index
    order, the levels [0 .. start_level) where [start_level] is
    [num_priority_levels] (all three levels) for the null hint and the
    priority level of the hint for a hint that points to a client; it
    returns the first client of the first non-empty bucket of that range,
    and the hint itself, unchanged, when every bucket of the range is empty
    (so null for the null hint and an empty registry). *)
Theorem select_next_client_scans s hint lvl :
  length (my_client_list s) = num_priority_levels →
  start_level s hint = Some lvl →
  lvl ≤ num_priority_levels →
  ∃ r, select_next_client hint s = Done r ∧
       ((∃ c, first_client_in (my_client_list s) 0 lvl c ∧ r = Some c) ∨
        (all_empty_in (my_client_list s) 0 lvl ∧ r = hint)).
Proof.
  intros Hlen Hstart Hlvl. unfold select_next_client.
  assert (match hint with
          | Some h => c ← deref s h; mret (priority_level c)
          | None => mret num_priority_levels
          end = Done lvl) as ->.
  { destruct hint as [h|]; simpl in Hstart.
    - unfold level_of, deref in *.
      destruct (client_storage s !! h); simplify_eq/=. done.
    - by simplify_eq. }
  simpl.
  destruct (select_next_client_loop_spec (my_client_list s) lvl 0)
    as (r & -> & Hspec); [lia|].
  simpl. destruct r as [c|]; eexists; (split; [done|]).
  - left. by exists c.
  - by right.
Qed.

(** A registry with the buckets [[]; [5]; [7]], where the null hint selects
    client 5. *)
Definition scan_example : thread_dispatcher :=
  {| my_client_list := [[]; [5%positive]; [7%positive]];
     my_next_client := None;
     my_clients_aba_epoch := 0%Z;
     my_server := [];
     client_storage := ∅ |}.

Lemma select_next_client_scans_witness :
  ∃ r, select_next_client None scan_example = Done r ∧
       ((∃ c, first_client_in (my_client_list scan_example) 0 3 c ∧
              r = Some c) ∨
        (all_empty_in (my_client_list scan_example) 0 3 ∧ r = None)).
Proof.
  apply (select_next_client_scans scan_example None 3).
  - reflexivity.
  - reflexivity.
  - unfold num_priority_levels. lia.
Defined.

(** The bucket of the hint's own level is not part of the range: with an
    empty level 0, a hint that is the second client of level 1 is returned
    itself, not the first client of its bucket. *)
Example select_next_client_skips_own_bucket :
  let s :=
    {| my_client_list := [[]; [5; 6]%positive; []];
       my_next_client := None;
       my_clients_aba_epoch := 0%Z;
       my_server := [];
       client_storage :=
         {[ 5%positive := {| my_arena := {| arena_priority_level := 1;
                                            arena_references := 0;
                                            arena_num_workers_requested := 0 |};
                             my_aba_epoch := 0%Z |};
            6%positive := {| my_arena := {| arena_priority_level := 1;
                                            arena_references := 0;
                                            arena_num_workers_requested := 0 |};
                             my_aba_epoch := 0%Z |} ]} |} in
  select_next_client (Some 6%positive) s = Done (Some 6%positive).
Proof. vm_compute. reflexivity. Qed.

(** Under the invariant the selector returns null or a registered client,
    for the null hint and for a registered hint. *)
Lemma select_next_client_registered s hint :
  wf s →
  match hint with Some h => h ∈ registered s | None => True end →
  ∃ r, select_next_client hint s = Done r ∧
       match r with Some c => c ∈ registered s | None => hint = None end.
Proof.
  intros Hwf Hhint.
  assert (∃ lvl, start_level s hint = Some lvl ∧ lvl ≤ num_priority_levels)
    as (lvl & Hstart & Hlvl).
  { destruct hint as [h|]; simpl; [|by eexists].
    destruct (wf_registered s h Hwf Hhint) as (c & b & Hc & Hlt & _).
    exists (priority_level c). unfold level_of. rewrite Hc. split; [done|lia]. }
  destruct (select_next_client_range s hint lvl) as (r & Hr & Hspec);
    [apply Hwf|done|done|].
  exists r. split; [done|].
  destruct Hspec as [(c & (idx & rest & _ & Hl & _) & ->)|[_ ->]].
  - unfold registered. apply elem_of_concat. exists (c :: rest).
    split; [by eapply list_elem_of_lookup_2|left].
  - by destruct hint.
Qed.

(** ** [adjust_job_count_estimate] *)

(** C9. [adjust_job_count_estimate(delta)] sends [delta] to the server once
    (the server's record of calls grows by exactly this one entry, nothing
    else changes) when [delta] is not zero, and does nothing at all when
    [delta] is zero. *)
Theorem adjust_job_count_estimate_forwards delta s :
  (delta ≠ 0%Z →
   my_server (adjust_job_count_estimate delta s) = delta :: my_server s ∧
   my_client_list (adjust_job_count_estimate delta s) = my_client_list s ∧
   my_next_client (adjust_job_count_estimate delta s) = my_next_client s ∧
   my_clients_aba_epoch (adjust_job_count_estimate delta s)
   = my_clients_aba_epoch s ∧
   client_storage (adjust_job_count_estimate delta s) = client_storage s) ∧
  (delta = 0%Z → adjust_job_count_estimate delta s = s).
Proof.
  unfold adjust_job_count_estimate. split; intros H.
  - rewrite decide_True by done. by repeat split.
  - by rewrite decide_False by (intros ?; done).
Qed.

(** ** Lists of clients *)

Lemma is_client_in_list_elem_of clients client :
  is_client_in_list clients client = bool_decide (client ∈ clients).
Proof.
  induction clients as [|it rest IH]; cbn [is_client_in_list].
  - symmetry. apply bool_decide_eq_false_2, not_elem_of_nil.
  - destruct (decide (client = it)) as [->|Hne].
    + symmetry. apply bool_decide_eq_true_2. left.
    + rewrite IH. apply bool_decide_ext. rewrite elem_of_cons.
      split; [by right|]. by intros [?|?].
Qed.

(** Removing a node that is in the list leaves the other nodes in their
    order. *)
Lemma remove_elem_of val l :
  val ∈ l →
  ∃ l1 l2, l = l1 ++ val :: l2 ∧ (val ∉ l1) ∧
           intrusive_list.remove val l = Done (l1 ++ l2).
Proof.
  induction l as [|x l IH]; [by intros ?%elem_of_nil|].
  intros Hin. simpl. destruct (decide (x = val)) as [->|Hne].
  - exists [], l. repeat split. apply not_elem_of_nil.
  - apply elem_of_cons in Hin as [->|Hin]; [done|].
    destruct (IH Hin) as (l1 & l2 & -> & Hl1 & ->).
    exists (x :: l1), l2. repeat split.
    rewrite not_elem_of_cons. split; [congruence|done].
Qed.

Lemma remove_Done val l l' :
  intrusive_list.remove val l = Done l' → val ∈ l.
Proof.
  revert l'. induction l as [|x l IH]; intros l'; simpl; [done|].
  destruct (decide (x = val)) as [->|Hne]; [left|].
  intros H. bind_inv H. right. eauto.
Qed.

(** The iterator after the node [it] of the list [l1 ++ it :: l2]. *)
Lemma next_middle l1 it l2 :
  it ∉ l1 → intrusive_list.next (l1 ++ it :: l2) it = Done (head l2).
Proof.
  induction l1 as [|x l1 IH]; simpl; intros Hnin.
  - by rewrite decide_True.
  - apply not_elem_of_cons in Hnin as [Hne Hnin].
    rewrite decide_False by congruence. by apply IH.
Qed.

(** Replacing the list of one level by a list with one more client adds
    that client to the registered ones. *)
Lemma concat_insert_Permutation (clients : list (list addr)) lvl b b' x :
  clients !! lvl = Some b → b' ≡ₚ x :: b →
  concat (<[lvl := b']> clients) ≡ₚ x :: concat clients.
Proof.
  revert lvl. induction clients as [|b0 clients IH]; intros [|lvl] Hl Hb;
    simplify_eq/=.
  - by rewrite Hb.
  - rewrite (IH lvl Hl Hb). by rewrite Permutation_middle.
Qed.

Lemma concat_remove_Permutation (clients : list (list addr)) lvl b b' x :
  clients !! lvl = Some b → b ≡ₚ x :: b' →
  concat clients ≡ₚ x :: concat (<[lvl := b']> clients).
Proof.
  intros Hl Hb.
  rewrite <-(concat_insert_Permutation (<[lvl := b']> clients) lvl b' b x).
  - by rewrite list_insert_insert_eq, list_insert_id.
  - apply list_lookup_insert_eq. by eapply lookup_lt_Some.
  - done.
Qed.

(** ** The invariant under changes of the registry *)

Lemma level_of_set_client_list l s p :
  level_of (set_client_list l s) p = level_of s p.
Proof. done. Qed.

Lemma level_of_set_next_client n s p :
  level_of (set_next_client n s) p = level_of s p.
Proof. done. Qed.

(** Replacing the list of level [lvl] and the cursor keeps the invariant,
    when the new lists hold no client twice, the new list holds stored
    clients of level [lvl] and the new cursor is null or in the new
    lists. *)
Lemma wf_update_bucket s lvl b' nxt :
  wf s → lvl < num_priority_levels →
  NoDup (concat (<[lvl := b']> (my_client_list s))) →
  Forall (λ p, level_of s p = Some lvl) b' →
  match nxt with
  | None => True
  | Some n => n ∈ concat (<[lvl := b']> (my_client_list s))
  end →
  wf (set_next_client nxt
        (set_client_list (<[lvl := b']> (my_client_list s)) s)).
Proof.
  intros (b0 & b1 & b2 & E & Hnd & H0 & H1 & H2 & _)%wf_buckets Hlvl.
  rewrite E. unfold num_priority_levels in Hlvl. intros Hnd' Hst Hnxt.
  apply wf_buckets.
  destruct lvl as [|[|[|lvl]]]; [| | |lia]; simpl in *;
    rewrite app_nil_r in Hnd';
    [exists b', b1, b2 | exists b0, b', b2 | exists b0, b1, b'];
    repeat split; try done;
    unfold cursor_live, registered; simpl; by rewrite app_nil_r.
Qed.

Lemma wf_set_next_client s nxt :
  wf s →
  match nxt with None => True | Some n => n ∈ registered s end →
  wf (set_next_client nxt s).
Proof. intros (Hlen & Hnd & Hst & _) Hnxt. by repeat split. Qed.

(** Changing client objects without changing their priority levels keeps
    the invariant. *)
Lemma wf_set_storage s m :
  wf s → (∀ p, p ∈ registered s → priority_level <$> m !! p = level_of s p) →
  wf (set_storage m s).
Proof.
  intros Hwf Hsame. pose proof Hwf as (Hlen & Hnd & Hst & Hcur).
  apply wf_buckets in Hwf as (b0 & b1 & b2 & E & _ & H0 & H1 & H2 & _).
  apply wf_buckets. exists b0, b1, b2. simpl.
  unfold registered in Hsame. rewrite E in Hsame. simpl in Hsame.
  rewrite app_nil_r in Hsame.
  rewrite Forall_forall in H0, H1, H2.
  assert (∀ (b : list addr) lvl,
            (∀ p, p ∈ b → p ∈ b0 ++ b1 ++ b2) →
            (∀ p, p ∈ b → level_of s p = Some lvl) →
            Forall (λ p, level_of (set_storage m s) p = Some lvl) b) as Hb.
  { intros b lvl Hsub Hb. apply Forall_forall. intros p Hp.
    unfold level_of at 1. simpl. rewrite Hsame by auto. auto. }
  split; [done|]. split.
  { unfold registered in Hnd. rewrite E in Hnd. simpl in Hnd.
    by rewrite app_nil_r in Hnd. }
  repeat split; [apply Hb|apply Hb|apply Hb|done]; try done;
    intros p Hp; rewrite !elem_of_app; auto.
Qed.

Lemma wf_bucket_stored s lvl b :
  wf s → my_client_list s !! lvl = Some b →
  Forall (λ p, level_of s p = Some lvl) b.
Proof.
  intros (b0 & b1 & b2 & E & _ & H0 & H1 & H2 & _)%wf_buckets. rewrite E.
  destruct lvl as [|[|[|lvl]]]; intros Hl; by simplify_eq/=.
Qed.

Lemma elem_of_bucket_registered s lvl b p :
  my_client_list s !! lvl = Some b → p ∈ b → p ∈ registered s.
Proof.
  intros Hl Hp. apply elem_of_concat. exists b. split; [|done].
  by eapply list_elem_of_lookup_2.
Qed.

(** ** [insert_client] and [register_client] *)

Lemma insert_client_spec s client c :
  wf s →
  client_storage s !! client = Some c →
  priority_level c < num_priority_levels →
  client ∉ registered s →
  ∃ b nxt,
    my_client_list s !! priority_level c = Some b ∧
    select_next_client (my_next_client s)
      (set_client_list
         (<[priority_level c := client :: b]> (my_client_list s)) s)
    = Done nxt ∧
    insert_client client s
    = Done (set_next_client nxt
              (set_client_list
                 (<[priority_level c := client :: b]> (my_client_list s)) s)) ∧
    wf (set_next_client nxt
          (set_client_list
             (<[priority_level c := client :: b]> (my_client_list s)) s)).
Proof.
  intros Hwf Hc Hlvl Hnew.
  destruct (lookup_lt_is_Some_2 (my_client_list s) (priority_level c))
    as [b Hb]; [by rewrite (proj1 Hwf)|].
  exists b.
  set (l1 := <[priority_level c := client :: b]> (my_client_list s)).
  assert (concat l1 ≡ₚ client :: registered s) as Hperm
    by by apply (concat_insert_Permutation _ _ b).
  assert (wf (set_client_list l1 s)) as Hwf1.
  { apply (wf_update_bucket s (priority_level c) (client :: b)
             (my_next_client s)); try done.
    - fold l1. rewrite Hperm. apply NoDup_cons. split; [done|apply Hwf].
    - constructor; [|by apply wf_bucket_stored].
      unfold level_of. by rewrite Hc.
    - destruct Hwf as (_ & _ & _ & Hcur). unfold cursor_live in Hcur.
      destruct (my_next_client s) as [n|]; [|done].
      fold l1. rewrite Hperm. by right. }
  destruct (select_next_client_registered (set_client_list l1 s)
              (my_next_client s) Hwf1) as (nxt & Hsel & Hnxt).
  { apply Hwf1. }
  exists nxt. split; [done|]. split; [done|]. split.
  - unfold insert_client, deref, intrusive_list.push_front. rewrite Hc. simpl.
    rewrite (proj2 (Nat.ltb_lt _ _) Hlvl). simpl.
    unfold bucket. rewrite Hb. simpl. fold l1.
    destruct (my_next_client s) as [n|] eqn:En; simpl.
    + destruct (wf_registered (set_client_list l1 s) n Hwf1)
        as (cn & bn & Hcn & Hlt & _).
      { destruct Hwf1 as (_ & _ & _ & Hcur). unfold cursor_live in Hcur.
        simpl in Hcur. by rewrite En in Hcur. }
      simpl in Hcn. rewrite Hcn. simpl.
      rewrite (proj2 (Nat.ltb_lt _ _) Hlt). simpl.
      by rewrite Hsel.
    + by rewrite Hsel.
  - apply wf_set_next_client; [done|].
    destruct nxt; [done|done].
Qed.

(** C8. [register_client(client)] does not fail on a client object that
    exists, carries a valid priority level and is not yet registered: it
    puts the client at the front of the list of the client's priority level,
    before the clients registered there earlier, and sets the cursor to what
    the selector returns for the cursor as it was. *)
Theorem register_client_front s client c :
  wf s →
  client_storage s !! client = Some c →
  priority_level c < num_priority_levels →
  client ∉ registered s →
  ∃ b nxt s',
    register_client client s = Done s' ∧
    my_client_list s !! priority_level c = Some b ∧
    my_client_list s'
    = <[priority_level c := client :: b]> (my_client_list s) ∧
    select_next_client (my_next_client s)
      (set_client_list (my_client_list s') s) = Done nxt ∧
    my_next_client s' = nxt ∧
    client_storage s' = client_storage s ∧
    my_clients_aba_epoch s' = my_clients_aba_epoch s ∧
    my_server s' = my_server s.
Proof.
  intros Hwf Hc Hlvl Hnew.
  destruct (insert_client_spec s client c Hwf Hc Hlvl Hnew)
    as (b & nxt & Hb & Hsel & Hins & _).
  exists b, nxt. eexists. split; [exact Hins|]. by repeat split.
Qed.

(** The invariant holds again after a registration. *)
Lemma register_client_wf s client c s' :
  wf s →
  client_storage s !! client = Some c →
  priority_level c < num_priority_levels →
  client ∉ registered s →
  register_client client s = Done s' → wf s'.
Proof.
  intros Hwf Hc Hlvl Hnew Hrun.
  destruct (insert_client_spec s client c Hwf Hc Hlvl Hnew)
    as (b & nxt & _ & _ & Hins & Hwf').
  unfold register_client in Hrun. rewrite Hins in Hrun. by simplify_eq.
Qed.

(** ** [remove_client] *)

(** The cursor as [remove_client] leaves it before it calls the selector. *)
Definition cursor_without (client : addr) (s : thread_dispatcher)
  : option addr :=
  if decide (my_next_client s = Some client) then None else my_next_client s.

(** The registry after [client] left the list of level [lvl], which is now
    [l], and the cursor became [nxt]. *)
Definition removed (lvl : nat) (l : list addr) (nxt : option addr)
    (s : thread_dispatcher) : thread_dispatcher :=
  set_next_client nxt (set_client_list (<[lvl := l]> (my_client_list s)) s).

(** The selector does not read the cursor. *)
Lemma select_next_client_set_next_client hint n s :
  select_next_client hint (set_next_client n s) = select_next_client hint s.
Proof. done. Qed.

Lemma remove_client_spec s client :
  wf s → client ∈ registered s →
  ∃ c l1 l2 nxt,
    client_storage s !! client = Some c ∧
    priority_level c < num_priority_levels ∧
    my_client_list s !! priority_level c = Some (l1 ++ (client :: l2)) ∧
    select_next_client (cursor_without client s)
      (removed (priority_level c) (l1 ++ l2) None s) = Done nxt ∧
    remove_client client s
    = Done (removed (priority_level c) (l1 ++ l2) nxt s) ∧
    wf (removed (priority_level c) (l1 ++ l2) nxt s) ∧
    (client ∉ registered (removed (priority_level c) (l1 ++ l2) nxt s)) ∧
    registered s
    ≡ₚ (client :: registered (removed (priority_level c) (l1 ++ l2) nxt s)).
Proof.
  intros Hwf Hin.
  destruct (wf_registered s client Hwf Hin) as (c & b & Hc & Hlt & Hb & Hcb).
  destruct (remove_elem_of client b Hcb) as (l1 & l2 & -> & Hl1 & Hrem).
  exists c, l1, l2.
  set (lvl := priority_level c) in *.
  set (l := <[lvl := l1 ++ l2]> (my_client_list s)).
  assert (registered s ≡ₚ client :: concat l) as Hperm.
  { apply (concat_remove_Permutation _ lvl (l1 ++ client :: l2)); [done|].
    by rewrite Permutation_middle. }
  assert (NoDup (client :: concat l)) as [Hnotin Hnd]%NoDup_cons.
  { rewrite <-Hperm. apply Hwf. }
  assert (wf (removed lvl (l1 ++ l2) (cursor_without client s) s)) as Hwf1.
  { apply wf_update_bucket; try done.
    - pose proof (wf_bucket_stored s lvl _ Hwf Hb) as Hst.
      rewrite Forall_app, Forall_cons in Hst. rewrite Forall_app. tauto.
    - unfold cursor_without. destruct Hwf as (_ & _ & _ & Hcur).
      unfold cursor_live in Hcur.
      destruct (decide (my_next_client s = Some client)) as [|Hne]; [done|].
      destruct (my_next_client s) as [n|]; [|done]. fold l.
      rewrite Hperm in Hcur. apply elem_of_cons in Hcur as [->|]; done. }
  destruct (select_next_client_registered _ (cursor_without client s) Hwf1)
    as (nxt & Hsel & Hnxt).
  { apply Hwf1. }
  exists nxt. split; [done|]. split; [done|]. split; [done|].
  split; [exact Hsel|]. split; [|split; [|split; [done|done]]].
  - unfold remove_client, deref. rewrite Hc. simpl. fold lvl.
    rewrite (proj2 (Nat.ltb_lt _ _) Hlt). simpl.
    unfold bucket. rewrite Hb. simpl. rewrite Hrem. simpl.
    unfold cursor_without in Hsel. fold l.
    destruct (decide (my_next_client s = Some client)) as [E|E];
      simpl; change (select_next_client ?h (removed ?a ?b ?n s))
               with (select_next_client h (set_client_list l s)) in Hsel;
      rewrite ?select_next_client_set_next_client; by rewrite Hsel.
  - apply (wf_set_next_client _ nxt) in Hwf1; [done|]. by destruct nxt.
Qed.

(** ** [is_client_alive] *)

Lemma is_client_alive_spec s client :
  length (my_client_list s) = num_priority_levels →
  is_client_alive (Some client) s
  = Done (bool_decide (client ∈ registered s)).
Proof.
  intros Hlen. unfold is_client_alive, registered.
  destruct (my_client_list s) as [|b0 [|b1 [|b2 [|]]]]; try discriminate.
  simpl. rewrite !is_client_in_list_elem_of, app_nil_r.
  repeat case_bool_decide; simpl; try done;
    rewrite !elem_of_app in *; tauto.
Qed.

Lemma is_client_alive_null s : is_client_alive None s = Done false.
Proof. done. Qed.

(** ** [try_unregister_client] *)

(** What [try_unregister_client] checks on the client object once it has
    found the client in the list. *)
Definition abandoned (aba_epoch : Z) (c : thread_dispatcher_client) : bool :=
  (get_aba_epoch c =? aba_epoch)%Z &&
  ((references c =? 0) && (num_workers_requested c =? 0)).

(** The registry after a successful [try_unregister_client]: the client left
    its list, the epoch counter moved on, the client object is gone. *)
Definition unregistered (client : addr) (lvl : nat) (l : list addr)
    (nxt : option addr) (s : thread_dispatcher) : thread_dispatcher :=
  set_storage (delete client (client_storage s))
    (set_aba_epoch (incr_epoch (my_clients_aba_epoch s))
       (removed lvl l nxt s)).

(** The search loop does nothing but return false when the client is not a
    node of the list. *)
Lemma try_unregister_client_loop_absent its client aba_epoch s :
  client ∉ its →
  try_unregister_client_loop its client aba_epoch s = Done (false, s).
Proof.
  induction its as [|it rest IH]; simpl; [done|].
  intros [Hne Hrest]%not_elem_of_cons.
  rewrite decide_False by done. by apply IH.
Qed.

(** When the client is a node of the list the loop stops at it. *)
Lemma try_unregister_client_loop_found its client aba_epoch s :
  client ∈ its →
  try_unregister_client_loop its client aba_epoch s
  = try_unregister_client_loop [client] client aba_epoch s.
Proof.
  induction its as [|it rest IH]; [by intros ?%elem_of_nil|].
  intros Hin. cbn [try_unregister_client_loop].
  destruct (decide (client = it)) as [<-|Hne].
  - by rewrite decide_True.
  - apply elem_of_cons in Hin as [?|Hin]; [done|].
    rewrite IH by done. cbn [try_unregister_client_loop].
    by rewrite decide_True.
Qed.

Lemma try_unregister_client_spec s client aba_epoch priority b :
  wf s → my_client_list s !! priority = Some b →
  if decide (client ∈ b) then
    ∃ c, client_storage s !! client = Some c ∧
         priority_level c = priority ∧
         if abandoned aba_epoch c then
           ∃ l1 l2 nxt,
             b = l1 ++ client :: l2 ∧
             select_next_client (cursor_without client s)
               (removed priority (l1 ++ l2) None s) = Done nxt ∧
             try_unregister_client client aba_epoch priority s
             = Done (true, unregistered client priority (l1 ++ l2) nxt s) ∧
             wf (unregistered client priority (l1 ++ l2) nxt s) ∧
             (client ∉ registered
                         (unregistered client priority (l1 ++ l2) nxt s))
         else
           try_unregister_client client aba_epoch priority s = Done (false, s)
  else try_unregister_client client aba_epoch priority s = Done (false, s).
Proof.
  intros Hwf Hb. unfold try_unregister_client, bucket. rewrite Hb. simpl.
  destruct (decide (client ∈ b)) as [Hin|Hnin];
    [|by apply try_unregister_client_loop_absent].
  rewrite try_unregister_client_loop_found by done.
  pose proof (elem_of_bucket_registered s priority b client Hb Hin) as Hreg.
  destruct (remove_client_spec s client Hwf Hreg)
    as (c & l1 & l2 & nxt & Hc & Hlt & Hl & Hsel & Hrem & Hwf' & Hnot & Hperm).
  pose proof (wf_bucket_stored s priority b Hwf Hb) as Hst.
  rewrite Forall_forall in Hst. specialize (Hst client Hin).
  unfold level_of in Hst. rewrite Hc in Hst. simpl in Hst.
  injection Hst as Hlvl. rewrite Hlvl in *.
  exists c. split; [done|]. split; [done|].
  simpl. rewrite decide_True by done. unfold deref. rewrite Hc. simpl.
  unfold abandoned.
  destruct (get_aba_epoch c =? aba_epoch)%Z; simpl; [|done].
  destruct ((references c =? 0) && (num_workers_requested c =? 0)); [|done].
  exists l1, l2, nxt. rewrite Hl in Hb. injection Hb as <-.
  split; [done|]. split; [done|]. rewrite Hrem. simpl.
  split; [done|]. split; [|done].
  apply wf_set_storage.
  - destruct Hwf' as (? & ? & ? & ?). by repeat split.
  - intros p Hp. unfold level_of. simpl.
    rewrite lookup_delete_ne; [done|]. intros ->. by apply Hnot.
Qed.

(** C2. [try_unregister_client(client, epoch, priority)] returns true
    exactly when the client is a node of the list of level [priority], the
    epoch stored in it is [epoch] and its reference count and its number of
    requested workers are both zero.  When it returns true the client has
    left that list, the epoch counter of the registry is the old one plus
    one (modulo 2^64: it is a 64-bit counter) and the client object no
    longer exists; when it returns false the dispatcher is exactly as it
    was. *)
Theorem try_unregister_client_iff s client aba_epoch priority :
  wf s → priority < num_priority_levels →
  ∃ r s',
    try_unregister_client client aba_epoch priority s = Done (r, s') ∧
    (r = true ↔
     ∃ b c, my_client_list s !! priority = Some b ∧ client ∈ b ∧
            client_storage s !! client = Some c ∧
            get_aba_epoch c = aba_epoch ∧
            references c = 0 ∧ num_workers_requested c = 0) ∧
    (r = true →
     ∃ l1 l2,
       my_client_list s !! priority = Some (l1 ++ client :: l2) ∧
       my_client_list s' = <[priority := l1 ++ l2]> (my_client_list s) ∧
       (client ∉ registered s') ∧
       my_clients_aba_epoch s'
       = ((my_clients_aba_epoch s + 1) mod 2 ^ 64)%Z ∧
       client_storage s' = delete client (client_storage s)) ∧
    (r = false → s' = s).
Proof.
  intros Hwf Hprio.
  destruct (lookup_lt_is_Some_2 (my_client_list s) priority) as [b Hb];
    [by rewrite (proj1 Hwf)|].
  pose proof (try_unregister_client_spec s client aba_epoch priority b Hwf Hb)
    as Hspec.
  destruct (decide (client ∈ b)) as [Hin|Hnin].
  - destruct Hspec as (c & Hc & Hlvl & Hspec).
    destruct (abandoned aba_epoch c) eqn:Hab.
    + destruct Hspec as (l1 & l2 & nxt & -> & Hsel & Hrun & Hwf' & Hnot).
      eexists true, _. split; [exact Hrun|].
      unfold abandoned in Hab.
      apply andb_prop in Hab as [He%Z.eqb_eq Hab].
      apply andb_prop in Hab as [Hr%Nat.eqb_eq Hw%Nat.eqb_eq].
      split; [|split; [|done]].
      * split; [|done]. intros _. by exists (l1 ++ client :: l2), c.
      * intros _. by exists l1, l2.
    + exists false, s. split; [done|]. split; [|done].
      split; [done|]. intros (b' & c' & Hb' & _ & Hc' & He & Hr & Hw).
      rewrite Hc in Hc'. injection Hc' as <-.
      unfold abandoned in Hab. rewrite He, Hr, Hw, Z.eqb_refl in Hab.
      discriminate.
  - exists false, s. split; [done|]. split; [|done].
    split; [done|]. intros (b' & c' & Hb' & Hin & _).
    rewrite Hb in Hb'. by injection Hb' as <-.
Qed.

(** C7. Unregistering a registered client that has no references and no
    requested workers, with the epoch and the priority level it carries,
    returns true, and [is_client_alive] on that client returns false
    afterwards. *)
Theorem unregistered_client_not_alive s client c :
  wf s → client ∈ registered s →
  client_storage s !! client = Some c →
  references c = 0 → num_workers_requested c = 0 →
  ∃ s',
    try_unregister_client client (get_aba_epoch c) (priority_level c) s
    = Done (true, s') ∧
    is_client_alive (Some client) s' = Done false.
Proof.
  intros Hwf Hreg Hc Hr Hw.
  destruct (wf_registered s client Hwf Hreg) as (c' & b & Hc' & Hlt & Hb & Hin).
  rewrite Hc in Hc'. injection Hc' as <-.
  pose proof (try_unregister_client_spec s client (get_aba_epoch c)
                (priority_level c) b Hwf Hb) as Hspec.
  rewrite decide_True in Hspec by done.
  destruct Hspec as (c' & Hc' & _ & Hspec).
  rewrite Hc in Hc'. injection Hc' as <-.
  unfold abandoned in Hspec. rewrite Hr, Hw, Z.eqb_refl in Hspec.
  simpl in Hspec.
  destruct Hspec as (l1 & l2 & nxt & _ & _ & Hrun & Hwf' & Hnot).
  eexists. split; [exact Hrun|].
  rewrite is_client_alive_spec by apply Hwf'.
  by rewrite bool_decide_eq_false_2.
Qed.

(** C10. After [insert_client] and after [remove_client] the cursor
    [my_next_client] is null or a client that is in one of the lists; after
    [remove_client] it is not the client that was removed. *)
Theorem cursor_stays_live s :
  wf s →
  (∀ client c,
     client_storage s !! client = Some c →
     priority_level c < num_priority_levels →
     client ∉ registered s →
     ∃ s', insert_client client s = Done s' ∧ cursor_live s') ∧
  (∀ client,
     client ∈ registered s →
     ∃ s', remove_client client s = Done s' ∧ cursor_live s' ∧
           my_next_client s' ≠ Some client).
Proof.
  intros Hwf. split.
  - intros client c Hc Hlvl Hnew.
    destruct (insert_client_spec s client c Hwf Hc Hlvl Hnew)
      as (b & nxt & _ & _ & Hins & Hwf').
    eexists. split; [exact Hins|apply Hwf'].
  - intros client Hreg.
    destruct (remove_client_spec s client Hwf Hreg)
      as (c & l1 & l2 & nxt & _ & _ & _ & _ & Hrem & Hwf' & Hnot & _).
    eexists. split; [exact Hrem|]. split; [apply Hwf'|].
    destruct Hwf' as (_ & _ & _ & Hcur). unfold cursor_live in Hcur.
    simpl in *. intros ->. by apply Hnot.
Qed.

(** ** A registry with three clients *)

Definition arena_A : arena :=
  {| arena_priority_level := 0; arena_references := 0;
     arena_num_workers_requested := 2 |}.
Definition arena_B : arena :=
  {| arena_priority_level := 1; arena_references := 0;
     arena_num_workers_requested := 1 |}.
Definition arena_C : arena :=
  {| arena_priority_level := 2; arena_references := 0;
     arena_num_workers_requested := 0 |}.

Definition client_A : addr := 1%positive.
Definition client_B : addr := 2%positive.
Definition client_C : addr := 3%positive.

(** The dispatcher after A, B and C were created and registered. *)
Definition three_clients : thread_dispatcher :=
  {| my_client_list := [[client_A]; [client_B]; [client_C]];
     my_next_client := Some client_A;
     my_clients_aba_epoch := 0%Z;
     my_server := [];
     client_storage :=
       {[ client_A := {| my_arena := arena_A; my_aba_epoch := 0%Z |};
          client_B := {| my_arena := arena_B; my_aba_epoch := 0%Z |};
          client_C := {| my_arena := arena_C; my_aba_epoch := 0%Z |} ]} |}.

Lemma three_clients_created :
  ('(a, s) ← create_client client_A arena_A new_dispatcher;
   s ← register_client a s;
   '(b, s) ← create_client client_B arena_B s;
   s ← register_client b s;
   '(c, s) ← create_client client_C arena_C s;
   register_client c s) = Done three_clients.
Proof. vm_compute. reflexivity. Qed.

Lemma three_clients_wf : wf three_clients.
Proof. apply (bool_decide_unpack _). vm_compute. reflexivity. Qed.

Lemma try_unregister_client_iff_witness :
  ∃ r s',
    try_unregister_client client_C 0%Z 2 three_clients = Done (r, s') ∧
    (r = true ↔
     ∃ b c, my_client_list three_clients !! 2 = Some b ∧ client_C ∈ b ∧
            client_storage three_clients !! client_C = Some c ∧
            get_aba_epoch c = 0%Z ∧
            references c = 0 ∧ num_workers_requested c = 0) ∧
    (r = true →
     ∃ l1 l2,
       my_client_list three_clients !! 2 = Some (l1 ++ client_C :: l2) ∧
       my_client_list s' = <[2 := l1 ++ l2]> (my_client_list three_clients) ∧
       (client_C ∉ registered s') ∧
       my_clients_aba_epoch s'
       = ((my_clients_aba_epoch three_clients + 1) mod 2 ^ 64)%Z ∧
       client_storage s' = delete client_C (client_storage three_clients)) ∧
    (r = false → s' = three_clients).
Proof.
  apply (try_unregister_client_iff three_clients client_C 0%Z 2).
  - apply (bool_decide_unpack _). vm_compute. reflexivity.
  - unfold num_priority_levels. lia.
Defined.

Lemma unregistered_client_not_alive_witness :
  ∃ s',
    try_unregister_client client_C 0%Z 2 three_clients = Done (true, s') ∧
    is_client_alive (Some client_C) s' = Done false.
Proof.
  apply (unregistered_client_not_alive three_clients client_C
           {| my_arena := arena_C; my_aba_epoch := 0%Z |}).
  - apply (bool_decide_unpack _). vm_compute. reflexivity.
  - apply (bool_decide_unpack _). vm_compute. reflexivity.
  - vm_compute. reflexivity.
  - reflexivity.
  - reflexivity.
Defined.

Lemma cursor_stays_live_witness :
  (∃ s', insert_client 4%positive
           (set_storage
              (<[4%positive := {| my_arena := arena_A; my_aba_epoch := 0%Z |}]>
                 (client_storage three_clients)) three_clients) = Done s' ∧
         cursor_live s') ∧
  (∃ s', remove_client client_A three_clients = Done s' ∧ cursor_live s' ∧
         my_next_client s' ≠ Some client_A).
Proof.
  split.
  - refine (proj1 (cursor_stays_live _ _) 4%positive
              {| my_arena := arena_A; my_aba_epoch := 0%Z |} _ _ _).
    + apply (bool_decide_unpack _). vm_compute. reflexivity.
    + vm_compute. reflexivity.
    + vm_compute. lia.
    + apply (bool_decide_unpack _). vm_compute. reflexivity.
  - refine (proj2 (cursor_stays_live three_clients _) client_A _).
    + apply (bool_decide_unpack _). vm_compute. reflexivity.
    + apply (bool_decide_unpack _). vm_compute. reflexivity.
Defined.

(** ** [try_join] and the pending demand *)

Lemma try_join_Done t s joined s' :
  try_join t s = Done (joined, s') →
  if joined
  then demand s t = S (demand s' t) ∧
       (∀ u, u ≠ t → demand s' u = demand s u) ∧
       (∀ u, level_of s' u = level_of s u) ∧
       my_client_list s' = my_client_list s ∧
       my_next_client s' = my_next_client s
  else s' = s ∧ demand s t = 0.
Proof.
  unfold try_join, deref, demand, level_of.
  destruct (client_storage s !! t) as [c|] eqn:Hc; simpl; [|done].
  unfold client_try_join.
  destruct (num_workers_requested c) as [|d] eqn:Hd; simpl;
    intros H; unfold mret, outcome_ret in H; simplify_eq.
  - done.
  - simpl. rewrite lookup_insert_eq. simpl. repeat split; try done.
    + intros u Hu. by rewrite lookup_insert_ne.
    + intros u. destruct (decide (t = u)) as [<-|Hne].
      * by rewrite lookup_insert_eq, Hc.
      * by rewrite lookup_insert_ne.
Qed.

(** A stored client with pending demand accepts the worker, one without
    demand does not. *)
Lemma try_join_stored t s :
  is_Some (client_storage s !! t) →
  ∃ s', try_join t s = Done (bool_decide (0 < demand s t), s') ∧
        (demand s t = 0 → s' = s).
Proof.
  intros [c Hc]. unfold try_join, deref, demand. rewrite Hc. simpl.
  unfold client_try_join.
  destruct (num_workers_requested c) as [|d]; simpl.
  - by exists s.
  - eexists. split; [done|]. lia.
Qed.

(** A call of [client_in_need] changes the dispatcher by one successful
    [try_join], on the client it returns, or not at all. *)
Lemma client_in_need_loop_Done budget fuel clients hint : ∀ it lvl s r s',
  client_in_need_loop budget fuel clients hint it lvl s = Done (r, s') →
  match r with
  | Some t => try_join t s = Done (true, s')
  | None => s' = s
  end.
Proof.
  induction fuel as [|fuel IH]; intros it lvl s r s' H; simpl in H; [done|].
  bind_inv H. bind_inv H. destruct a0 as [it2 lvl2].
  bind_inv H. destruct a0 as [joined s1].
  pose proof (try_join_Done _ _ _ _ Hrun1) as Hj.
  destruct joined.
  - by simplify_eq.
  - destruct Hj as [-> _].
    destruct (decide (it2 = Some hint)).
    + by simplify_eq.
    + by apply IH in H.
Qed.

Lemma client_in_need_from_Done budget clients hint s r s' :
  client_in_need_from budget clients hint s = Done (r, s') →
  match r with
  | Some t => try_join t s = Done (true, s')
  | None => s' = s
  end.
Proof.
  unfold client_in_need_from. intros H. bind_inv H.
  destruct a as [h|]; [|by simplify_eq].
  bind_inv H. by apply client_in_need_loop_Done in H.
Qed.

Lemma client_in_need_Done budget prev s r s' :
  client_in_need budget prev s = Done (r, s') →
  match r with
  | Some t => try_join t s = Done (true, s')
  | None => s' = s
  end.
Proof.
  unfold client_in_need. intros H. bind_inv H.
  destruct a; by apply client_in_need_from_Done in H.
Qed.

(** ** Sequences of [client_in_need] calls *)

(** The calls [client_in_need(prev)] for the hints [prevs], one after the
    other: the clients returned, up to the first call that does not return,
    and how the sequence ended. *)
Fixpoint client_in_need_calls (budget : nat) (prevs : list (option addr))
    (s : thread_dispatcher) : list (option addr) * outcome thread_dispatcher :=
  match prevs with
  | [] => ([], Done s)
  | prev :: rest =>
      match client_in_need budget prev s with
      | Done (r, s') =>
          let '(rs, o) := client_in_need_calls budget rest s' in (r :: rs, o)
      | Fault => ([], Fault)
      | Timeout => ([], Timeout)
      end
  end.

(** How often the client [c] was returned. *)
Definition times_returned (c : addr) (rs : list (option addr)) : nat :=
  length (filter (λ r, r = Some c) rs).

(** C3. With [try_join] a decrement of the pending demand that succeeds only
    from a positive value, in every sequence of [client_in_need] calls, from
    every state of the dispatcher and for every iteration budget, a client
    is returned at most as often as its pending demand at the start. *)
Theorem client_in_need_no_double_dispatch budget prevs : ∀ s c,
  times_returned c (client_in_need_calls budget prevs s).1 ≤ demand s c.
Proof.
  unfold times_returned.
  induction prevs as [|prev rest IH]; intros s c; simpl; [lia|].
  destruct (client_in_need budget prev s) as [[r s']| |] eqn:Hcall;
    simpl; try lia.
  specialize (IH s' c).
  destruct (client_in_need_calls budget rest s') as [rs o]. simpl in *.
  apply client_in_need_Done in Hcall.
  rewrite filter_cons. destruct r as [t|].
  - apply try_join_Done in Hcall as (Hd & Hother & _).
    destruct (decide (Some t = Some c)) as [E|E]; simpl.
    + injection E as ->. lia.
    + rewrite <-(Hother c) by congruence. done.
  - subst s'. rewrite decide_False by done. done.
Qed.

(** ** A larger iteration budget changes no result *)

Lemma next_nonempty_level_S fuel clients lvl :
  next_nonempty_level (S fuel) clients lvl
  = (b ← bucket clients ((lvl + 1) mod num_priority_levels);
     if intrusive_list.empty b
     then next_nonempty_level fuel clients
            ((lvl + 1) mod num_priority_levels)
     else mret ((lvl + 1) mod num_priority_levels)).
Proof. done. Qed.

Lemma next_nonempty_level_mono clients fuel : ∀ fuel' lvl r,
  fuel ≤ fuel' →
  next_nonempty_level fuel clients lvl = Done r →
  next_nonempty_level fuel' clients lvl = Done r.
Proof.
  induction fuel as [|fuel IH]; intros fuel' lvl r Hle H; [done|].
  destruct fuel' as [|fuel']; [lia|].
  rewrite next_nonempty_level_S in *.
  destruct (bucket clients ((lvl + 1) mod num_priority_levels)) as [b| |];
    try done.
  cbn [mbind outcome_bind] in *.
  destruct (intrusive_list.empty b); [|done]. apply IH; [lia|done].
Qed.

Lemma advance_iterator_mono clients budget budget' t lvl r :
  budget ≤ budget' →
  advance_iterator budget clients t lvl = Done r →
  advance_iterator budget' clients t lvl = Done r.
Proof.
  intros Hle. unfold advance_iterator.
  destruct (bucket clients lvl) as [b| |]; simpl; try done.
  destruct (intrusive_list.next b t) as [[it1|]| |]; simpl; try done.
  intros H. bind_inv H.
  by rewrite (next_nonempty_level_mono _ _ _ _ _ Hle Hrun).
Qed.

Lemma client_in_need_loop_mono clients hint budget budget' fuel :
  ∀ fuel' it lvl s r,
  budget ≤ budget' → fuel ≤ fuel' →
  client_in_need_loop budget fuel clients hint it lvl s = Done r →
  client_in_need_loop budget' fuel' clients hint it lvl s = Done r.
Proof.
  induction fuel as [|fuel IH]; intros fuel' it lvl s r Hb Hf H; [done|].
  destruct fuel' as [|fuel']; [lia|]. simpl in *.
  bind_inv H. rewrite Hrun. simpl. bind_inv H.
  rewrite (advance_iterator_mono _ _ _ _ _ _ Hb Hrun0). simpl.
  destruct a0 as [it2 lvl2]. bind_inv H. rewrite Hrun1. simpl.
  destruct a0 as [[] s1]; [done|].
  destruct (decide (it2 = Some hint)); [done|]. apply IH; [done|lia|done].
Qed.

Lemma client_in_need_from_mono clients hint budget budget' s r :
  budget ≤ budget' →
  client_in_need_from budget clients hint s = Done r →
  client_in_need_from budget' clients hint s = Done r.
Proof.
  intros Hle. unfold client_in_need_from.
  destruct (select_next_client hint s) as [[h|]| |]; simpl; try done.
  destruct (deref s h); simpl; try done.
  by apply client_in_need_loop_mono.
Qed.

Lemma client_in_need_mono prev budget budget' s r :
  budget ≤ budget' →
  client_in_need budget prev s = Done r →
  client_in_need budget' prev s = Done r.
Proof.
  intros Hle. unfold client_in_need.
  destruct (is_client_alive prev s) as [[]| |]; simpl; try done;
    by apply client_in_need_from_mono.
Qed.

Lemma client_in_need_calls_mono budget budget' prevs : ∀ s rs s',
  budget ≤ budget' →
  client_in_need_calls budget prevs s = (rs, Done s') →
  client_in_need_calls budget' prevs s = (rs, Done s').
Proof.
  induction prevs as [|prev rest IH]; intros s rs s' Hle; simpl; [done|].
  destruct (client_in_need budget prev s) as [[r s1]| |] eqn:Hcall;
    try done.
  rewrite (client_in_need_mono _ _ _ _ _ Hle Hcall).
  destruct (client_in_need_calls budget rest s1) as [rs1 o] eqn:Hrest.
  intros H. simplify_eq. by rewrite (IH _ _ _ Hle Hrest).
Qed.

(** ** The scenario with three clients *)

(** The three clients after A was joined twice and B once. *)
Definition three_clients_served : thread_dispatcher :=
  set_storage
    {[ client_A :=
         {| my_arena := {| arena_priority_level := 0; arena_references := 0;
                           arena_num_workers_requested := 0 |};
            my_aba_epoch := 0%Z |};
       client_B :=
         {| my_arena := {| arena_priority_level := 1; arena_references := 0;
                           arena_num_workers_requested := 0 |};
            my_aba_epoch := 0%Z |};
       client_C := {| my_arena := arena_C; my_aba_epoch := 0%Z |} ]}
    three_clients.

(** C4. With A (priority 0, demand 2), B (priority 1, demand 1) and
    C (priority 2, demand 0) created and registered and nothing else, four
    calls [client_in_need(nullptr)] in a row return A, A, B and null, for
    every iteration budget of at least three. *)
Theorem three_clients_scenario k :
  ('(a, s) ← create_client client_A arena_A new_dispatcher;
   s ← register_client a s;
   '(b, s) ← create_client client_B arena_B s;
   s ← register_client b s;
   '(c, s) ← create_client client_C arena_C s;
   register_client c s) = Done three_clients ∧
  client_in_need_calls (3 + k) [None; None; None; None] three_clients
  = ([Some client_A; Some client_A; Some client_B; None],
     Done three_clients_served).
Proof.
  split; [exact three_clients_created|].
  apply (client_in_need_calls_mono 3); [lia|]. vm_compute. reflexivity.
Qed.

(** The order in which A, B and C are registered makes no difference. *)
Lemma three_clients_any_order :
  Forall
    (λ order,
       ∃ s, foldl (λ o '(p, a),
                     s ← o; '(q, s) ← create_client p a s;
                     register_client q s)
              (Done new_dispatcher) order = Done s ∧
            (client_in_need_calls 3 [None; None; None; None] s).1
            = [Some client_A; Some client_A; Some client_B; None])
    (permutations
       [(client_A, arena_A); (client_B, arena_B); (client_C, arena_C)]).
Proof.
  vm_compute. repeat constructor; eexists; (split; [reflexivity|]);
    vm_compute; reflexivity.
Qed.

(** The three clients and the storage of a fourth one, at [4], created for
    the arena [a] and not yet registered. *)
Definition with_fourth (a : arena) : thread_dispatcher :=
  set_storage
    (<[4%positive := {| my_arena := a; my_aba_epoch := 0%Z |}]>
       (client_storage three_clients)) three_clients.

Lemma register_client_front_witness :
  ∃ b nxt s',
    register_client 4%positive (with_fourth arena_B) = Done s' ∧
    my_client_list (with_fourth arena_B) !! 1 = Some b ∧
    my_client_list s'
    = <[1 := 4%positive :: b]> (my_client_list (with_fourth arena_B)) ∧
    select_next_client (my_next_client (with_fourth arena_B))
      (set_client_list (my_client_list s') (with_fourth arena_B)) = Done nxt ∧
    my_next_client s' = nxt ∧
    client_storage s' = client_storage (with_fourth arena_B) ∧
    my_clients_aba_epoch s' = my_clients_aba_epoch (with_fourth arena_B) ∧
    my_server s' = my_server (with_fourth arena_B).
Proof.
  apply (register_client_front (with_fourth arena_B) 4%positive
           {| my_arena := arena_B; my_aba_epoch := 0%Z |}).
  - apply (bool_decide_unpack _). vm_compute. reflexivity.
  - vm_compute. reflexivity.
  - vm_compute. lia.
  - apply (bool_decide_unpack _). vm_compute. reflexivity.
Defined.

Lemma adjust_job_count_estimate_forwards_witness :
  (my_server (adjust_job_count_estimate 2%Z three_clients)
   = 2%Z :: my_server three_clients ∧
   my_client_list (adjust_job_count_estimate 2%Z three_clients)
   = my_client_list three_clients ∧
   my_next_client (adjust_job_count_estimate 2%Z three_clients)
   = my_next_client three_clients ∧
   my_clients_aba_epoch (adjust_job_count_estimate 2%Z three_clients)
   = my_clients_aba_epoch three_clients ∧
   client_storage (adjust_job_count_estimate 2%Z three_clients)
   = client_storage three_clients) ∧
  adjust_job_count_estimate 0%Z three_clients = three_clients.
Proof.
  split.
  - apply (proj1 (adjust_job_count_estimate_forwards 2%Z three_clients)).
    lia.
  - apply (proj2 (adjust_job_count_estimate_forwards 0%Z three_clients)).
    reflexivity.
Defined.

(** ** The cyclic scan of [client_in_need] *)

(** The clients from [h] on. *)
Fixpoint from_client (h : addr) (l : list addr) : list addr :=
  match l with
  | [] => []
  | x :: l' => if decide (x = h) then l else from_client h l'
  end.

(** The clients before [h]. *)
Fixpoint before_client (h : addr) (l : list addr) : list addr :=
  match l with
  | [] => []
  | x :: l' => if decide (x = h) then [] else x :: before_client h l'
  end.

(** The registered clients in bucket order, started at [h] and wrapped
    around: the rest of the list of [h], the lists of the following levels,
    the lists of the levels before, the clients before [h] in its list. *)
Definition cyclic_order (l : list addr) (h : addr) : list addr :=
  from_client h l ++ before_client h l.

(** The first client of [order] that has pending demand. *)
Fixpoint first_accepting (s : thread_dispatcher) (order : list addr)
  : option addr :=
  match order with
  | [] => None
  | t :: rest =>
      if bool_decide (0 < demand s t) then Some t
      else first_accepting s rest
  end.

(** Offering a worker to the clients of [order], one after the other, until
    one accepts. *)
Definition scan_result (s : thread_dispatcher) (order : list addr)
  : outcome (option addr * thread_dispatcher) :=
  match first_accepting s order with
  | Some u => '(_, s') ← try_join u s; mret (Some u, s')
  | None => mret (None, s)
  end.

Lemma from_before_client pre h post :
  h ∉ pre →
  from_client h (pre ++ h :: post) = h :: post ∧
  before_client h (pre ++ h :: post) = pre.
Proof.
  induction pre as [|x pre IH]; simpl; intros Hnin.
  - by rewrite !decide_True.
  - apply not_elem_of_cons in Hnin as [Hne Hnin].
    rewrite !decide_False by congruence.
    destruct (IH Hnin) as [-> ->]. done.
Qed.

Lemma cyclic_order_split l h :
  h ∈ l →
  ∃ pre post, l = pre ++ h :: post ∧ (h ∉ pre) ∧
              cyclic_order l h = h :: post ++ pre.
Proof.
  intros (pre & post & -> & Hnin)%list_elem_of_split_l.
  exists pre, post. split; [done|]. split; [done|].
  unfold cyclic_order. by destruct (from_before_client pre h post Hnin) as [-> ->].
Qed.

Lemma cyclic_order_Permutation l h : h ∈ l → cyclic_order l h ≡ₚ l.
Proof.
  intros (pre & post & -> & _ & ->)%cyclic_order_split.
  by rewrite (Permutation_app_comm pre), <-app_comm_cons.
Qed.

(** A list without repetitions is split at a client in one way only. *)
Lemma NoDup_split_unique (l1 : list addr) : ∀ l2 l1' l2' x,
  NoDup (l1 ++ x :: l2) →
  l1 ++ x :: l2 = l1' ++ x :: l2' → l1 = l1' ∧ l2 = l2'.
Proof.
  induction l1 as [|a l1 IH]; intros l2 l1' l2' x Hnd Heq.
  - destruct l1' as [|a' l1']; simplify_eq/=; [done|].
    apply NoDup_cons in Hnd as [Hnin _]. exfalso. apply Hnin.
    rewrite elem_of_app, elem_of_cons. auto.
  - destruct l1' as [|a' l1']; simpl in *; injection Heq as -> Heq.
    + apply NoDup_cons in Hnd as [Hnin _]. exfalso. apply Hnin.
      rewrite elem_of_app, elem_of_cons. auto.
    + apply NoDup_cons in Hnd as [_ Hnd].
      destruct (IH _ _ _ _ Hnd Heq) as [-> ->]. done.
Qed.

(** Where the client at some place of the cyclic order sits in the bucket
    order: what comes after it there, then what comes before it, is what is
    left of the cyclic order, then what was already passed. *)
Lemma cyclic_position (pre0 post0 vis rest : list addr) h t :
  h :: post0 ++ pre0 = vis ++ t :: rest →
  ∃ pre post,
    pre0 ++ h :: post0 = pre ++ t :: post ∧ post ++ pre = rest ++ vis.
Proof.
  intros Heq.
  apply (app_eq_app (h :: post0) pre0 vis (t :: rest)) in Heq
    as [m [[Hv Hr]|[Hv Hr]]].
  - destruct m as [|t' m]; simpl in Hr.
    + rewrite app_nil_r in Hv. subst vis. rewrite <-Hr.
      exists [], (rest ++ h :: post0). by rewrite app_nil_r.
    + injection Hr as -> ->. rewrite Hv.
      exists (pre0 ++ vis), m. by rewrite <-!app_assoc.
  - subst. exists m, (rest ++ h :: post0).
    by rewrite <-!app_assoc.
Qed.

(** ** One step of the iterator *)

(** Closes the cases of [advance_iterator_spec] once the lists are split far
    enough for the step to compute. *)
Ltac advance_case :=
  simpl; eexists _, _, _;
  split; [reflexivity|]; split; [reflexivity|]; split; [reflexivity|];
  rewrite ?elem_of_app, ?elem_of_cons; auto.

(** For a budget of at least [num_priority_levels] the step from a
    registered client [t] returns: it leads to the client after [t] in
    bucket order, or from the last client to the first one, and to the
    level of that client. *)
Lemma advance_iterator_spec budget b0 b1 b2 lvl b pre t post :
  num_priority_levels ≤ budget →
  NoDup (b0 ++ b1 ++ b2) →
  b0 ++ b1 ++ b2 = pre ++ t :: post →
  [b0; b1; b2] !! lvl = Some b → t ∈ b →
  ∃ t' lvl' b',
    advance_iterator budget [b0; b1; b2] t lvl = Done (Some t', lvl') ∧
    head (post ++ pre ++ [t]) = Some t' ∧
    [b0; b1; b2] !! lvl' = Some b' ∧ t' ∈ b'.
Proof.
  unfold num_priority_levels. intros Hbudget Hnd Hall Hl Hin.
  destruct budget as [|[|[|k]]]; [lia..|].
  apply list_elem_of_split_l in Hin as (p & q & -> & Hp).
  destruct lvl as [|[|[|lvl]]]; simplify_eq/=.
  - rewrite <-app_assoc in Hall, Hnd. simpl in Hall, Hnd.
    destruct (NoDup_split_unique _ _ _ _ _ Hnd Hall) as [<- <-].
    unfold advance_iterator. simpl. rewrite next_middle by done. simpl.
    destruct q as [|t' q]; [|advance_case].
    destruct b1 as [|x1 b1]; [|advance_case].
    destruct b2 as [|x2 b2]; [|advance_case].
    destruct p as [|x0 p]; advance_case.
  - assert (b0 ++ (p ++ t :: q) ++ b2 = (b0 ++ p) ++ t :: (q ++ b2)) as E
      by (by rewrite <-!app_assoc).
    rewrite E in Hall, Hnd.
    destruct (NoDup_split_unique _ _ _ _ _ Hnd Hall) as [<- <-].
    unfold advance_iterator. simpl. rewrite next_middle by done. simpl.
    destruct q as [|t' q]; [|advance_case].
    destruct b2 as [|x2 b2]; [|advance_case].
    destruct b0 as [|x0 b0]; [|advance_case].
    destruct p as [|x1 p]; advance_case.
  - assert (b0 ++ b1 ++ p ++ t :: q = (b0 ++ b1 ++ p) ++ t :: q) as E
      by (by rewrite <-!app_assoc).
    rewrite E in Hall, Hnd.
    destruct (NoDup_split_unique _ _ _ _ _ Hnd Hall) as [<- <-].
    unfold advance_iterator. simpl. rewrite next_middle by done. simpl.
    destruct q as [|t' q]; [|advance_case].
    destruct b0 as [|x0 b0]; [|advance_case].
    destruct b1 as [|x1 b1]; [|advance_case].
    destruct p as [|x2 p]; advance_case.
Qed.

(** ** The scan loop *)

(** Entered at the client [t] of the cyclic order that starts at [hint],
    with enough budget for the clients that are left, the loop offers the
    worker to [t] and to the clients after it in that order and stops at the
    first one that accepts or when it is back at [hint]. *)
Lemma client_in_need_loop_spec s budget b0 b1 b2 hint pre0 post0 :
  num_priority_levels ≤ budget →
  NoDup (b0 ++ b1 ++ b2) →
  (∀ p, p ∈ b0 ++ b1 ++ b2 → is_Some (client_storage s !! p)) →
  b0 ++ b1 ++ b2 = pre0 ++ hint :: post0 →
  ∀ rest vis t lvl b fuel,
    hint :: post0 ++ pre0 = vis ++ t :: rest →
    [b0; b1; b2] !! lvl = Some b → t ∈ b →
    length (t :: rest) ≤ fuel →
    client_in_need_loop budget fuel [b0; b1; b2] hint (Some t) lvl s
    = scan_result s (t :: rest).
Proof.
  intros Hbudget Hnd Hstored Hall.
  assert (NoDup (hint :: post0 ++ pre0)) as Hndr.
  { rewrite Hall in Hnd. revert Hnd.
    by rewrite (Permutation_app_comm pre0), <-app_comm_cons. }
  induction rest as [|t' rest IH]; intros vis t lvl b fuel Hrot Hl Hin Hfuel;
    (destruct fuel as [|fuel]; [simpl in Hfuel; lia|]);
    cbn [client_in_need_loop];
    destruct (cyclic_position _ _ _ _ _ _ Hrot) as (pre & post & Hsplit & Hpp);
    destruct (advance_iterator_spec budget b0 b1 b2 lvl b pre t post Hbudget
                Hnd (eq_trans Hall Hsplit) Hl Hin)
      as (t2 & lvl2 & b' & Hadv & Hhead & Hl2 & Hin2);
    rewrite app_assoc, Hpp in Hhead;
    simpl; rewrite Hadv; simpl;
    (destruct (try_join_stored t s) as (s' & Hjoin & Hsame);
     [apply Hstored; rewrite Hall, Hsplit, elem_of_app, elem_of_cons; auto|]);
    rewrite Hjoin; simpl;
    unfold scan_result; cbn [first_accepting];
    case_bool_decide as Hd; simpl.
  - by rewrite Hjoin.
  - simpl in Hhead. rewrite <-Hrot in Hhead. simpl in Hhead.
    injection Hhead as <-.
    rewrite decide_True by done. rewrite Hsame by lia. done.
  - by rewrite Hjoin.
  - simpl in Hhead. injection Hhead as <-.
    rewrite Hsame by lia.
    rewrite decide_False.
    + apply (IH (vis ++ [t]) t' lvl2 b'); try done.
      * by rewrite <-app_assoc.
      * simpl in *. lia.
    + intros [= ->]. rewrite Hrot in Hndr.
      destruct vis as [|v vis]; simpl in Hrot; injection Hrot as -> Hrot.
      * apply NoDup_cons in Hndr as [Hn _]. apply Hn. by left.
      * apply NoDup_cons in Hndr as [Hn _]. apply Hn.
        rewrite elem_of_app, !elem_of_cons. auto.
Qed.

Lemma first_accepting_spec s order :
  match first_accepting s order with
  | Some t =>
      ∃ visited rest,
        order = visited ++ t :: rest ∧
        Forall (λ u, demand s u = 0) visited ∧ 0 < demand s t
  | None => Forall (λ u, demand s u = 0) order
  end.
Proof.
  induction order as [|u order IH]; simpl; [done|].
  case_bool_decide as Hd.
  - by exists [], order.
  - destruct (first_accepting s order) as [t|].
    + destruct IH as (visited & rest & -> & Hv & Ht).
      exists (u :: visited), rest. repeat split; [|done].
      constructor; [lia|done].
    + constructor; [lia|done].
Qed.

(** The level loop returns when some list holds a client and the budget
    covers the levels. *)
Lemma next_nonempty_level_returns budget b0 b1 b2 lvl :
  num_priority_levels ≤ budget →
  b0 ++ b1 ++ b2 ≠ [] →
  lvl < num_priority_levels →
  ∃ lvl' c rest,
    next_nonempty_level budget [b0; b1; b2] lvl = Done lvl' ∧
    [b0; b1; b2] !! lvl' = Some (c :: rest).
Proof.
  unfold num_priority_levels. intros Hbudget Hne Hlvl.
  destruct budget as [|[|[|k]]]; [lia..|].
  destruct lvl as [|[|[|lvl]]]; [| | |lia];
    destruct b0 as [|x0 b0], b1 as [|x1 b1], b2 as [|x2 b2];
    try done; simpl; by eexists _, _, _.
Qed.

(** With no client in any list it never leaves, whatever the budget. *)
Lemma next_nonempty_level_empty fuel : ∀ lvl,
  lvl < num_priority_levels →
  next_nonempty_level fuel [[]; []; []] lvl = Timeout.
Proof.
  unfold num_priority_levels.
  induction fuel as [|fuel IH]; intros lvl Hlvl; [done|].
  rewrite next_nonempty_level_S.
  assert ((lvl + 1) mod num_priority_levels < 3) as Hlt
    by (apply Nat.mod_upper_bound; done).
  destruct ((lvl + 1) mod num_priority_levels) as [|[|[|n]]] eqn:E;
    [| | |lia]; simpl; apply IH; lia.
Qed.

(** From the client [h] that the selector returns, [client_in_need] is the
    scan of the cyclic order that starts at [h]. *)
Lemma client_in_need_from_scan s hint budget h :
  wf s →
  num_priority_levels ≤ budget →
  length (registered s) ≤ budget →
  select_next_client hint s = Done (Some h) →
  h ∈ registered s →
  client_in_need_from budget (my_client_list s) hint s
  = scan_result s (cyclic_order (registered s) h).
Proof.
  intros Hwf Hbudget Hlen Hsel Hstart.
  unfold client_in_need_from. rewrite Hsel. simpl.
  destruct (wf_registered s h Hwf Hstart) as (c & b & Hc & Hlt & Hb & Hin).
  unfold deref. rewrite Hc. simpl.
  pose proof Hwf as (b0 & b1 & b2 & E & Hnd & H0 & H1 & H2 & _)%wf_buckets.
  assert (registered s = b0 ++ b1 ++ b2) as Hreg.
  { unfold registered. rewrite E. simpl. by rewrite app_nil_r. }
  destruct (cyclic_order_split (registered s) h Hstart)
    as (pre0 & post0 & Hall & Hpre0 & Hord).
  rewrite Hord, E.
  apply (client_in_need_loop_spec s budget b0 b1 b2 h pre0 post0
           Hbudget Hnd) with (vis := []) (b := b); try done.
  - intros p Hp. rewrite <-Hreg in Hp.
    destruct (wf_registered s p Hwf Hp) as (cp & _ & -> & _). by eexists.
  - by rewrite <-Hreg.
  - by rewrite <-E.
  - rewrite Hall, length_app in Hlen. simpl in *.
    rewrite length_app. lia.
Qed.

(** What the scan of an order of registered clients returns. *)
Lemma scan_result_spec s order :
  wf s → (∀ t, t ∈ order → t ∈ registered s) →
  match first_accepting s order with
  | Some t =>
      ∃ visited rest s',
        order = visited ++ t :: rest ∧
        Forall (λ u, demand s u = 0) visited ∧
        try_join t s = Done (true, s') ∧
        scan_result s order = Done (Some t, s')
  | None =>
      Forall (λ u, demand s u = 0) order ∧
      scan_result s order = Done (None, s)
  end.
Proof.
  intros Hwf Hsub. unfold scan_result.
  pose proof (first_accepting_spec s order) as Hfa.
  destruct (first_accepting s order) as [t|]; [|done].
  destruct Hfa as (visited & rest & Hsplit & Hvis & Hd).
  destruct (try_join_stored t s) as (s' & Hjoin & _).
  { assert (t ∈ registered s) as Ht.
    { apply Hsub. rewrite Hsplit, elem_of_app, elem_of_cons. auto. }
    destruct (wf_registered s t Hwf Ht) as (ct & _ & -> & _). by eexists. }
  rewrite bool_decide_eq_true_2 in Hjoin by done.
  exists visited, rest, s'. by rewrite Hjoin.
Qed.

(** C5. For a registry that satisfies the invariant, a hint that is null or
    registered, and a budget that covers the levels and the registered
    clients, [client_in_need(clients, hint)] returns.  When the selector
    returns a client [h], the level loop returns from every level (some list
    holds a client), and the scan offers the worker to the clients in the
    cyclic order from [h] (every registered client once, [h] first): it
    returns the first client that accepts, after refusals of all clients
    before it in that order, and null exactly when it is back at [h] after
    every client refused. *)
Theorem client_in_need_cyclic_scan s hint budget :
  wf s →
  match hint with Some h => h ∈ registered s | None => True end →
  num_priority_levels ≤ budget →
  length (registered s) ≤ budget →
  ∃ start,
    select_next_client hint s = Done start ∧
    match start with
    | None =>
        client_in_need_from budget (my_client_list s) hint s = Done (None, s)
    | Some h =>
        let order := cyclic_order (registered s) h in
        (∀ lvl, lvl < num_priority_levels →
           ∃ lvl' c rest,
             next_nonempty_level budget (my_client_list s) lvl = Done lvl' ∧
             my_client_list s !! lvl' = Some (c :: rest)) ∧
        head order = Some h ∧ NoDup order ∧ order ≡ₚ registered s ∧
        ((∃ visited t rest s',
            order = visited ++ t :: rest ∧
            Forall (λ u, demand s u = 0) visited ∧
            try_join t s = Done (true, s') ∧
            client_in_need_from budget (my_client_list s) hint s
            = Done (Some t, s')) ∨
         (Forall (λ u, demand s u = 0) order ∧
          client_in_need_from budget (my_client_list s) hint s
          = Done (None, s)))
    end.
Proof.
  intros Hwf Hhint Hbudget Hlen.
  destruct (select_next_client_registered s hint Hwf Hhint)
    as (start & Hsel & Hstart).
  exists start. split; [done|].
  destruct start as [h|].
  2: { unfold client_in_need_from. by rewrite Hsel. }
  rewrite (client_in_need_from_scan s hint budget h) by done.
  pose proof (cyclic_order_Permutation (registered s) h Hstart) as Hperm.
  split; [|split; [|split; [|split]]].
  - intros lvl Hlvl.
    pose proof Hwf as (b0 & b1 & b2 & E & _)%wf_buckets. rewrite E.
    apply next_nonempty_level_returns; [done| |done].
    intros Hnil. unfold registered in Hstart. rewrite E in Hstart.
    simpl in Hstart. rewrite app_nil_r, Hnil in Hstart.
    by apply elem_of_nil in Hstart.
  - by destruct (cyclic_order_split _ _ Hstart) as (? & ? & _ & _ & ->).
  - rewrite Hperm. apply Hwf.
  - done.
  - pose proof (scan_result_spec s (cyclic_order (registered s) h) Hwf)
      as Hscan.
    destruct (first_accepting s (cyclic_order (registered s) h)) as [t|].
    + destruct Hscan as (visited & rest & s' & Hsplit & Hvis & Hjoin & Hres).
      { intros t' Ht'. by rewrite <-Hperm. }
      left. by exists visited, t, rest, s'.
    + right. apply Hscan. intros t' Ht'. by rewrite <-Hperm.
Qed.

Lemma client_in_need_cyclic_scan_witness :
  ∃ start,
    select_next_client None three_clients = Done start ∧
    match start with
    | None =>
        client_in_need_from 3 (my_client_list three_clients) None
          three_clients = Done (None, three_clients)
    | Some h =>
        let order := cyclic_order (registered three_clients) h in
        (∀ lvl, lvl < num_priority_levels →
           ∃ lvl' c rest,
             next_nonempty_level 3 (my_client_list three_clients) lvl
             = Done lvl' ∧
             my_client_list three_clients !! lvl' = Some (c :: rest)) ∧
        head order = Some h ∧ NoDup order ∧
        order ≡ₚ registered three_clients ∧
        ((∃ visited t rest s',
            order = visited ++ t :: rest ∧
            Forall (λ u, demand three_clients u = 0) visited ∧
            try_join t three_clients = Done (true, s') ∧
            client_in_need_from 3 (my_client_list three_clients) None
              three_clients = Done (Some t, s')) ∨
         (Forall (λ u, demand three_clients u = 0) order ∧
          client_in_need_from 3 (my_client_list three_clients) None
            three_clients = Done (None, three_clients)))
    end.
Proof.
  apply (client_in_need_cyclic_scan three_clients None 3).
  - apply (bool_decide_unpack _). vm_compute. reflexivity.
  - exact I.
  - unfold num_priority_levels. lia.
  - vm_compute. lia.
Defined.

(** ** The worker loop *)

(** One pass of [process]: the [while] loop serves the clients [served], in
    this order, and is left by the first call of [client_in_need] that finds
    no client. *)
Inductive pass_run
    (client_process : addr → thread_dispatcher → thread_dispatcher)
    (budget : nat)
  : option addr → thread_data → thread_dispatcher →
    list addr → thread_data → thread_dispatcher → Prop :=
| pass_leave client td s s' :
    client_in_need budget client s = Done (None, s') →
    pass_run client_process budget client td s [] td s'
| pass_serve client td s c s1 served td' s' :
    client_in_need budget client s = Done (Some c, s1) →
    pass_run client_process budget (Some c) {| my_last_client := Some c |}
      (client_process c s1) served td' s' →
    pass_run client_process budget client td s (c :: served) td' s'.

(** The client a worker remembers after it served [served]. *)
Definition last_served (td : thread_data) (served : list addr)
  : option addr :=
  match last served with
  | Some c => Some c
  | None => my_last_client td
  end.

Lemma pass_run_last_client cp budget client td s served td' s' :
  pass_run cp budget client td s served td' s' →
  my_last_client td' = last_served td served.
Proof.
  unfold last_served.
  induction 1 as [|client td s c s1 served td' s' Hcall Hrun IH]; [done|].
  rewrite IH. simpl. destruct served as [|c' served]; [done|].
  rewrite last_cons_cons, (last_cons c'). by destruct (last served).
Qed.

Lemma process_while_pass_run cp budget fuel : ∀ client td s td' s' evs,
  process_while cp budget fuel client td s = Done (td', s', evs) ↔
  ∃ served,
    pass_run cp budget client td s served td' s' ∧
    evs = EvProcess <$> served ∧ length served < fuel.
Proof.
  induction fuel as [|fuel IH]; intros client td s td' s' evs.
  { split; [done|]. intros (served & _ & _ & Hlen). lia. }
  cbn [process_while]. split.
  - intros H. bind_inv H. destruct a as [[c|] s1].
    + bind_inv H. destruct a as [[td2 s3] evs2]. simplify_eq.
      apply IH in Hrun0 as (served & Hpass & -> & Hlen).
      exists (c :: served). split; [|split; [done|simpl; lia]].
      by eapply pass_serve.
    + simplify_eq. exists []. split; [|split; [done|simpl; lia]].
      by apply pass_leave.
  - intros (served & Hpass & -> & Hlen).
    inversion Hpass as [? ? ? ? Hcall|? ? ? c s1 served' ? ? Hcall Hrest];
      subst; rewrite Hcall; simpl; [done|].
    assert (process_while cp budget fuel (Some c)
              {| my_last_client := Some c |} (cp c s1)
            = Done (td', s', EvProcess <$> served')) as ->.
    { apply IH. exists served'. split; [done|]. split; [done|].
      simpl in Hlen. lia. }
    done.
Qed.

Lemma process_unfold cp yield budget td s :
  process cp yield budget td s
  = ('(td1, s1, evs1) ←
       process_while cp budget budget (my_last_client td) td s;
     '(td2, s2, evs2) ← process_while cp budget budget None td1 (yield s1);
     mret (td2, s2, evs1 ++ EvYield :: evs2)).
Proof.
  unfold process. simpl.
  destruct (process_while cp budget budget (my_last_client td) td s)
    as [[[td1 s1] evs1]| |]; simpl; try done.
  destruct (process_while cp budget budget None td1 (yield s1))
    as [[[td2 s2] evs2]| |]; simpl; try done.
  by rewrite app_nil_r.
Qed.

(** The amended C6. [process] makes two passes: in each it calls
    [client_in_need] again and again and, while a client is returned,
    records it as the worker's last client and runs its [process]; it yields
    once, after the first and before the second pass; it returns when a
    [client_in_need] call of the second pass finds no client, whether that
    is the first call of the pass or a call after the second pass has served
    clients.  It returns within the budget exactly when both passes are left
    within the budget. *)
Theorem process_two_passes cp yield budget td s td' s' evs :
  process cp yield budget td s = Done (td', s', evs) ↔
  ∃ pass1 pass2 td1 s1,
    pass_run cp budget (my_last_client td) td s pass1 td1 s1 ∧
    pass_run cp budget None td1 (yield s1) pass2 td' s' ∧
    evs = (EvProcess <$> pass1) ++ EvYield :: (EvProcess <$> pass2) ∧
    my_last_client td' = last_served td (pass1 ++ pass2) ∧
    length pass1 < budget ∧ length pass2 < budget.
Proof.
  rewrite process_unfold. split.
  - intros H. bind_inv H. destruct a as [[td1 s1] evs1].
    bind_inv H. destruct a as [[td2 s2] evs2]. simplify_eq.
    apply process_while_pass_run in Hrun as (pass1 & Hp1 & -> & Hl1).
    apply process_while_pass_run in Hrun0 as (pass2 & Hp2 & -> & Hl2).
    exists pass1, pass2, td1, s1.
    repeat split; try done.
    rewrite (pass_run_last_client _ _ _ _ _ _ _ _ Hp2).
    pose proof (pass_run_last_client _ _ _ _ _ _ _ _ Hp1) as Hlast.
    unfold last_served in *. rewrite last_app.
    destruct (last pass2); [done|]. done.
  - intros (pass1 & pass2 & td1 & s1 & Hp1 & Hp2 & -> & _ & Hl1 & Hl2).
    assert (process_while cp budget budget (my_last_client td) td s
            = Done (td1, s1, EvProcess <$> pass1)) as ->.
    { apply process_while_pass_run. by exists pass1. }
    simpl.
    assert (process_while cp budget budget None td1 (yield s1)
            = Done (td', s', EvProcess <$> pass2)) as ->.
    { apply process_while_pass_run. by exists pass2. }
    done.
Qed.

(** *** A worker whose second pass serves a client *)

(** While the worker yields, another thread raises the demand of C to
    one. *)
Definition demand_arrives (s : thread_dispatcher) : thread_dispatcher :=
  set_storage
    (<[client_C :=
         {| my_arena := {| arena_priority_level := 2; arena_references := 0;
                           arena_num_workers_requested := 1 |};
            my_aba_epoch := 0%Z |}]> (client_storage s)) s.

(** C6 as it is worded: [process] returns at the first [client_in_need] call
    of the second pass, that is, nothing is served after the yield. *)
Definition returns_at_first_call_after_yield (evs : list event) : Prop :=
  ∃ pass1, evs = (EvProcess <$> pass1) ++ [EvYield].

(** From the three clients without demand, with a client [process] that
    leaves the dispatcher alone, the first pass finds no client, the demand
    of C arrives during the yield, and the second pass serves C at its first
    call and returns at its second. *)
Lemma process_serves_after_yield :
  process (λ _ s, s) demand_arrives 3 {| my_last_client := None |}
    three_clients_served
  = Done ({| my_last_client := Some client_C |}, three_clients_served,
          [EvYield; EvProcess client_C]) ∧
  ¬ returns_at_first_call_after_yield [EvYield; EvProcess client_C].
Proof.
  split; [vm_compute; reflexivity|].
  intros (pass1 & Hevs).
  destruct pass1 as [|c1 pass1]; simpl in Hevs; [discriminate|].
  discriminate.
Qed.

Lemma process_two_passes_witness :
  ∃ pass1 pass2 td1 s1,
    pass_run (λ _ s, s) 3 None {| my_last_client := None |}
      three_clients_served pass1 td1 s1 ∧
    pass_run (λ _ s, s) 3 None td1 (demand_arrives s1) pass2
      {| my_last_client := Some client_C |} three_clients_served ∧
    [EvYield; EvProcess client_C]
    = (EvProcess <$> pass1) ++ EvYield :: (EvProcess <$> pass2) ∧
    Some client_C
    = last_served {| my_last_client := None |} (pass1 ++ pass2) ∧
    length pass1 < 3 ∧ length pass2 < 3.
Proof.
  apply (proj1 (process_two_passes (λ _ s, s) demand_arrives 3
                  {| my_last_client := None |} three_clients_served
                  {| my_last_client := Some client_C |} three_clients_served
                  [EvYield; EvProcess client_C])).
  vm_compute. reflexivity.
Defined.

(** *** A worker that is left alone returns *)

(** The pending demand of all registered clients. *)
Definition total_demand (s : thread_dispatcher) : nat :=
  sum_list_with (demand s) (registered s).

Lemma sum_list_one_less (f g : addr → nat) (l : list addr) t :
  NoDup l → t ∈ l → f t = S (g t) → (∀ u, u ≠ t → g u = f u) →
  sum_list_with f l = S (sum_list_with g l).
Proof.
  intros Hnd Hin Ht Hother.
  induction l as [|x l IH]; [by apply elem_of_nil in Hin|].
  apply NoDup_cons in Hnd as [Hx Hnd]. simpl.
  destruct (decide (x = t)) as [->|Hne].
  - rewrite Ht.
    assert (sum_list_with f l = sum_list_with g l) as ->; [|lia].
    clear IH Hin Hnd. induction l as [|y l IH]; [done|]. simpl.
    apply not_elem_of_cons in Hx as [Hy Hx].
    rewrite (IH Hx), (Hother y) by done. done.
  - apply elem_of_cons in Hin as [->|Hin]; [done|].
    rewrite (IH Hnd Hin), (Hother x Hne). lia.
Qed.

Lemma total_demand_zero s :
  Forall (λ u, demand s u = 0) (registered s) → total_demand s = 0.
Proof.
  unfold total_demand. induction 1 as [|u l Hu _ IH]; simpl; [done|].
  by rewrite Hu, IH.
Qed.

(** A successful [try_join] keeps the invariant and the lists. *)
Lemma try_join_wf t s s' :
  wf s → try_join t s = Done (true, s') →
  wf s' ∧ registered s' = registered s.
Proof.
  intros Hwf Hjoin. pose proof (try_join_Done _ _ _ _ Hjoin)
    as (_ & _ & Hlvl & Hlist & Hcur).
  assert (registered s' = registered s) as Hreg
    by (unfold registered; by rewrite Hlist).
  split; [|done]. destruct Hwf as (Hlen & Hnd & Hst & Hlive).
  unfold wf, cursor_live. rewrite Hreg, Hlist, Hcur.
  repeat split; try done.
  eapply Forall_impl; [exact Hst|]. intros [lvl b]. unfold bucket_stored.
  simpl. intros Hb. eapply Forall_impl; [exact Hb|].
  intros p. simpl. by rewrite Hlvl.
Qed.

(** Under the invariant and with a budget that covers the levels and the
    registered clients, [client_in_need(prev)] returns for every [prev], a
    dangling one too: a registered client whose demand it took one from, or
    null when no registered client has demand. *)
Lemma client_in_need_returns s prev budget :
  wf s →
  num_priority_levels ≤ budget →
  length (registered s) ≤ budget →
  ∃ r s',
    client_in_need budget prev s = Done (r, s') ∧
    wf s' ∧ registered s' = registered s ∧
    match r with
    | Some t => t ∈ registered s ∧ total_demand s = S (total_demand s')
    | None => s' = s ∧ total_demand s = 0
    end.
Proof.
  intros Hwf Hbudget Hlen. unfold client_in_need.
  assert (∃ hint,
            match hint with Some h => h ∈ registered s | None => True end ∧
            (alive ← is_client_alive prev s;
             if (alive : bool)
             then client_in_need_from budget (my_client_list s) prev s
             else client_in_need_from budget (my_client_list s)
                    (my_next_client s) s)
            = client_in_need_from budget (my_client_list s) hint s)
    as (hint & Hhint & ->).
  { assert (∃ hint,
              match hint with Some h => h ∈ registered s | None => True end ∧
              hint = my_next_client s) as (cur & Hcur & Ecur).
    { exists (my_next_client s). split; [|done].
      destruct Hwf as (_ & _ & _ & Hlive). unfold cursor_live in Hlive.
      by destruct (my_next_client s). }
    destruct prev as [p|].
    - rewrite is_client_alive_spec by apply Hwf. simpl.
      case_bool_decide as Hp.
      + by exists (Some p).
      + exists cur. split; [done|by rewrite Ecur].
    - rewrite is_client_alive_null. simpl. exists cur.
      split; [done|by rewrite Ecur]. }
  destruct (select_next_client_registered s hint Hwf Hhint)
    as (start & Hsel & Hstart).
  destruct start as [h|].
  - rewrite (client_in_need_from_scan s hint budget h) by done.
    pose proof (cyclic_order_Permutation (registered s) h Hstart) as Hperm.
    pose proof (scan_result_spec s (cyclic_order (registered s) h) Hwf)
      as Hscan.
    destruct (first_accepting s (cyclic_order (registered s) h)) as [t|].
    + destruct Hscan as (visited & rest & s' & Hsplit & Hvis & Hjoin & ->).
      { intros t' Ht'. by rewrite <-Hperm. }
      destruct (try_join_wf t s s' Hwf Hjoin) as [Hwf' Hreg].
      exists (Some t), s'. split; [done|]. split; [done|]. split; [done|].
      assert (t ∈ registered s) as Ht.
      { rewrite <-Hperm, Hsplit, elem_of_app, elem_of_cons. auto. }
      split; [done|].
      apply try_join_Done in Hjoin as (Hd & Hother & _).
      unfold total_demand. rewrite Hreg.
      apply (sum_list_one_less _ _ _ t); try done. apply Hwf.
    + destruct Hscan as [Hzero ->].
      { intros t' Ht'. by rewrite <-Hperm. }
      exists None, s. repeat split; try done; try apply Hwf.
      apply total_demand_zero. by rewrite <-Hperm.
  - unfold client_in_need_from. rewrite Hsel. simpl.
    exists None, s. repeat split; try done; try apply Hwf.
    apply total_demand_zero.
    destruct (registered s) as [|x l] eqn:E; [done|].
    exfalso.
    destruct (select_next_client_range s None num_priority_levels)
      as (r & Hr & Hspec); [apply Hwf|done|done|].
    destruct hint as [h|]; [done|]. rewrite Hsel in Hr. injection Hr as <-.
    destruct Hspec as [(c & _ & [=])|[Hempty _]].
    pose proof Hwf as (b0 & b1 & b2 & El & _)%wf_buckets.
    unfold registered in E. rewrite El in *.
    pose proof (Hempty 0) as E0. pose proof (Hempty 1) as E1.
    pose proof (Hempty 2) as E2. unfold num_priority_levels in *.
    simpl in *.
    specialize (E0 ltac:(lia)). specialize (E1 ltac:(lia)).
    specialize (E2 ltac:(lia)). by simplify_eq.
Qed.

(** With a client [process] and a [yield] that leave the dispatcher alone,
    a pass returns once it has taken up the pending demand. *)
Lemma process_while_quiescent budget fuel : ∀ client td s,
  wf s →
  num_priority_levels ≤ budget →
  length (registered s) ≤ budget →
  total_demand s < fuel →
  ∃ td' s' served,
    process_while (λ _ s, s) budget fuel client td s
    = Done (td', s', EvProcess <$> served) ∧
    wf s' ∧ registered s' = registered s ∧ total_demand s' = 0 ∧
    length served = total_demand s.
Proof.
  induction fuel as [|fuel IH]; intros client td s Hwf Hbudget Hlen Hfuel;
    [lia|].
  cbn [process_while].
  destruct (client_in_need_returns s client budget Hwf Hbudget Hlen)
    as (r & s1 & -> & Hwf1 & Hreg1 & Hr).
  simpl. destruct r as [c|].
  - destruct Hr as [Hc Hd].
    destruct (IH (Some c) {| my_last_client := Some c |} s1 Hwf1 Hbudget)
      as (td' & s' & served & -> & Hwf' & Hreg' & Hzero & Hserved);
      [by rewrite Hreg1|lia|].
    simpl. exists td', s', (c :: served).
    split; [done|]. split; [done|]. split; [congruence|]. split; [done|].
    simpl. lia.
  - destruct Hr as [-> Hzero]. exists td, s, []. by rewrite Hzero.
Qed.

(** A worker that is left alone returns from [process]: it serves as many
    clients as there is pending demand in the first pass, yields, and its
    second pass finds no client at its first call. *)
Lemma process_quiescent_returns budget td s :
  wf s →
  num_priority_levels ≤ budget →
  length (registered s) ≤ budget →
  total_demand s < budget →
  ∃ td' s' served,
    process (λ _ s, s) (λ s, s) budget td s
    = Done (td', s', (EvProcess <$> served) ++ [EvYield]) ∧
    length served = total_demand s.
Proof.
  intros Hwf Hbudget Hlen Hfuel. rewrite process_unfold.
  destruct (process_while_quiescent budget budget (my_last_client td) td s
              Hwf Hbudget Hlen Hfuel)
    as (td1 & s1 & served & -> & Hwf1 & Hreg1 & Hzero & Hserved).
  simpl.
  destruct (process_while_quiescent budget budget None td1 s1 Hwf1 Hbudget)
    as (td2 & s2 & served2 & -> & _ & _ & _ & Hserved2);
    [by rewrite Hreg1|unfold num_priority_levels in *; lia|].
  simpl. rewrite Hzero in Hserved2.
  destruct served2; [|done]. by exists td2, s2, served.
Qed.

(** * Further properties of the dispatcher *)

(** ** Liveness of client pointers *)

(** [is_client_alive] compares the pointer with the nodes of the lists and
    never reads the client behind it: for every pointer, null, dangling or
    valid, it returns, and it returns true exactly for the pointers to
    registered clients. *)
Theorem is_client_alive_iff_registered s client :
  length (my_client_list s) = num_priority_levels →
  ∃ alive,
    is_client_alive client s = Done alive ∧
    (alive = true ↔ ∃ p, client = Some p ∧ p ∈ registered s).
Proof.
  intros Hlen. destruct client as [p|].
  - rewrite is_client_alive_spec by done. eexists. split; [done|].
    rewrite bool_decide_eq_true. split.
    + intros Hp. by exists p.
    + by intros (q & [= <-] & Hq).
  - exists false. split; [done|]. split; [done|]. by intros (p & [=] & _).
Qed.

Lemma is_client_alive_iff_registered_witness :
  ∃ alive,
    is_client_alive (Some 9%positive) three_clients = Done alive ∧
    (alive = true ↔
     ∃ p, Some 9%positive = Some p ∧ p ∈ registered three_clients).
Proof.
  apply (is_client_alive_iff_registered three_clients (Some 9%positive)).
  reflexivity.
Defined.

(** A client that was created is not alive before it is registered and is
    alive afterwards; the registration changes the answer for no other
    pointer. *)
Theorem register_client_makes_alive s client c :
  wf s →
  client_storage s !! client = Some c →
  priority_level c < num_priority_levels →
  client ∉ registered s →
  ∃ s',
    register_client client s = Done s' ∧
    is_client_alive (Some client) s = Done false ∧
    is_client_alive (Some client) s' = Done true ∧
    ∀ q, q ≠ client →
         is_client_alive (Some q) s' = is_client_alive (Some q) s.
Proof.
  intros Hwf Hc Hlvl Hnew.
  destruct (insert_client_spec s client c Hwf Hc Hlvl Hnew)
    as (b & nxt & Hb & _ & Hins & Hwf').
  eexists. split; [exact Hins|].
  assert (registered
            (set_next_client nxt
               (set_client_list
                  (<[priority_level c := client :: b]> (my_client_list s)) s))
          ≡ₚ client :: registered s) as Hperm
    by by apply (concat_insert_Permutation _ _ b).
  rewrite !is_client_alive_spec by (apply Hwf || apply Hwf').
  split; [by rewrite bool_decide_eq_false_2|].
  split.
  - rewrite bool_decide_eq_true_2; [done|]. rewrite Hperm. left.
  - intros q Hq. rewrite !is_client_alive_spec by (apply Hwf || apply Hwf').
    f_equal. apply bool_decide_ext. rewrite Hperm, elem_of_cons.
    split; [by intros [?|?]|by right].
Qed.

Lemma register_client_makes_alive_witness :
  ∃ s',
    register_client 4%positive (with_fourth arena_B) = Done s' ∧
    is_client_alive (Some 4%positive) (with_fourth arena_B) = Done false ∧
    is_client_alive (Some 4%positive) s' = Done true ∧
    ∀ q, q ≠ 4%positive →
         is_client_alive (Some q) s'
         = is_client_alive (Some q) (with_fourth arena_B).
Proof.
  apply (register_client_makes_alive (with_fourth arena_B) 4%positive
           {| my_arena := arena_B; my_aba_epoch := 0%Z |}).
  - apply (bool_decide_unpack _). vm_compute. reflexivity.
  - vm_compute. reflexivity.
  - vm_compute. lia.
  - apply (bool_decide_unpack _). vm_compute. reflexivity.
Defined.

(** ** The selector and the highest-priority non-empty bucket *)

(** The client [x] is registered and no list of a level above its own holds
    a client: [x] is in the highest-priority non-empty bucket. *)
Definition top_client (s : thread_dispatcher) (x : addr) : Prop :=
  ∃ lvl, level_of s x = Some lvl ∧
         all_empty_in (my_client_list s) 0 lvl ∧ x ∈ registered s.

(** The cursor is in the highest-priority non-empty bucket, and null only
    when nothing is registered. *)
Definition cursor_top (s : thread_dispatcher) : Prop :=
  match my_next_client s with
  | Some n => top_client s n
  | None => registered s = []
  end.

Lemma all_empty_registered s :
  length (my_client_list s) = num_priority_levels →
  all_empty_in (my_client_list s) 0 num_priority_levels →
  registered s = [].
Proof.
  unfold registered, all_empty_in, num_priority_levels. intros Hlen Hempty.
  destruct (my_client_list s) as [|b0 [|b1 [|b2 [|]]]]; try discriminate.
  pose proof (Hempty 0 ltac:(lia)). pose proof (Hempty 1 ltac:(lia)).
  pose proof (Hempty 2 ltac:(lia)). by simplify_eq/=.
Qed.

Lemma select_next_client_top_spec s hint :
  wf s →
  match hint with Some h => h ∈ registered s | None => True end →
  ∃ r,
    select_next_client hint s = Done r ∧
    match r with
    | Some x => top_client s x
    | None => hint = None ∧ registered s = []
    end ∧
    (∀ h, hint = Some h → top_client s h → r = Some h).
Proof.
  intros Hwf Hhint.
  assert (∃ lvl, start_level s hint = Some lvl ∧ lvl ≤ num_priority_levels)
    as (lvl & Hstart & Hlvl).
  { destruct hint as [h|]; simpl; [|by eexists].
    destruct (wf_registered s h Hwf Hhint) as (c & b & Hc & Hlt & _).
    exists (priority_level c). unfold level_of. rewrite Hc. split; [done|lia]. }
  destruct (select_next_client_range s hint lvl) as (r & Hr & Hspec);
    [apply Hwf|done|done|].
  exists r. split; [done|].
  destruct Hspec as [(c & (idx & rest & Hidx & Hl & Hbefore) & ->)
                    |[Hempty ->]].
  - split.
    + exists idx. split; [|split; [done|]].
      * pose proof (wf_bucket_stored s idx _ Hwf Hl) as Hst.
        by apply Forall_cons in Hst as [Hc _].
      * eapply elem_of_bucket_registered; [exact Hl|left].
    + intros h -> (lh & Hlh & Hempty & _). simpl in Hstart.
      rewrite Hlh in Hstart. injection Hstart as ->.
      specialize (Hempty idx ltac:(lia)). by rewrite Hl in Hempty.
  - split; [|done]. destruct hint as [h|]; simpl in Hstart.
    + by exists lvl.
    + injection Hstart as <-. split; [done|].
      apply all_empty_registered; [apply Hwf|done].
Qed.

(** Whatever the hint, the selector returns a client of the
    highest-priority non-empty bucket: the hint itself when the hint is in
    that bucket, the first client of that bucket otherwise; it returns null
    only for the null hint over an empty registry.  It never returns a
    client of lower priority than the hint. *)
Theorem select_next_client_top s hint :
  wf s →
  match hint with Some h => h ∈ registered s | None => True end →
  ∃ r,
    select_next_client hint s = Done r ∧
    match r with
    | Some x =>
        top_client s x ∧
        ((hint = Some x) ∨
         (∃ lvl rest, my_client_list s !! lvl = Some (x :: rest)) ∧
         ∀ h, hint = Some h → ¬ top_client s h)
    | None => hint = None ∧ registered s = []
    end.
Proof.
  intros Hwf Hhint.
  destruct (select_next_client_top_spec s hint Hwf Hhint)
    as (r & Hr & Htop & Hkeep).
  exists r. split; [done|]. destruct r as [x|]; [|done].
  split; [done|].
  destruct (decide (hint = Some x)) as [|Hne]; [by left|right].
  split.
  - assert (∃ lvl, start_level s hint = Some lvl ∧
                   lvl ≤ num_priority_levels) as (lvl & Hstart & Hlvl).
    { destruct hint as [h|]; simpl; [|by eexists].
      destruct (wf_registered s h Hwf Hhint) as (c & b & Hc & Hlt & _).
      exists (priority_level c). unfold level_of. rewrite Hc.
      split; [done|lia]. }
    destruct (select_next_client_range s hint lvl) as (r' & Hr' & Hspec);
      [apply Hwf|done|done|].
    rewrite Hr in Hr'. injection Hr' as <-.
    destruct Hspec as [(c & (idx & rest & _ & Hl & _) & [= <-])|[_ E]];
      [by exists idx, rest|done].
  - intros h -> Hh. apply Hne. symmetry. by apply Hkeep.
Qed.

Lemma select_next_client_top_witness :
  ∃ r,
    select_next_client (Some client_B) three_clients = Done r ∧
    match r with
    | Some x =>
        top_client three_clients x ∧
        ((Some client_B = Some x) ∨
         (∃ lvl rest, my_client_list three_clients !! lvl = Some (x :: rest)) ∧
         ∀ h, Some client_B = Some h → ¬ top_client three_clients h)
    | None => Some client_B = None ∧ registered three_clients = []
    end.
Proof.
  apply (select_next_client_top three_clients (Some client_B)).
  - apply (bool_decide_unpack _). vm_compute. reflexivity.
  - apply (bool_decide_unpack _). vm_compute. reflexivity.
Defined.

(** The selector is idempotent: applied to its own result it returns that
    result again. *)
Theorem select_next_client_idempotent s hint :
  wf s →
  match hint with Some h => h ∈ registered s | None => True end →
  ∃ r, select_next_client hint s = Done r ∧ select_next_client r s = Done r.
Proof.
  intros Hwf Hhint.
  destruct (select_next_client_top_spec s hint Hwf Hhint)
    as (r & Hr & Htop & _).
  exists r. split; [done|]. destruct r as [x|].
  - destruct (select_next_client_top_spec s (Some x) Hwf)
      as (r' & Hr' & _ & Hkeep); [by destruct Htop as (? & ? & ? & ?)|].
    by rewrite Hr', (Hkeep x eq_refl Htop).
  - destruct Htop as [-> _]. done.
Qed.

Lemma select_next_client_idempotent_witness :
  ∃ r, select_next_client (Some client_C) three_clients = Done r ∧
       select_next_client r three_clients = Done r.
Proof.
  apply (select_next_client_idempotent three_clients (Some client_C)).
  - apply (bool_decide_unpack _). vm_compute. reflexivity.
  - apply (bool_decide_unpack _). vm_compute. reflexivity.
Defined.

(** After [insert_client] and after [remove_client] the cursor is in the
    highest-priority non-empty bucket, whatever it was before, and it is
    null only when no client is registered any more: a worker without a
    live last client starts its scan at the highest priority. *)
Theorem cursor_in_top_bucket s :
  wf s →
  (∀ client c,
     client_storage s !! client = Some c →
     priority_level c < num_priority_levels →
     client ∉ registered s →
     ∃ s', insert_client client s = Done s' ∧ cursor_top s') ∧
  (∀ client,
     client ∈ registered s →
     ∃ s', remove_client client s = Done s' ∧ cursor_top s').
Proof.
  intros Hwf. split.
  - intros client c Hc Hlvl Hnew.
    destruct (insert_client_spec s client c Hwf Hc Hlvl Hnew)
      as (b & nxt & Hb & Hsel & Hins & Hwf').
    eexists. split; [exact Hins|].
    set (s1 := set_client_list
                 (<[priority_level c := client :: b]> (my_client_list s)) s)
      in *.
    destruct (select_next_client_top_spec (set_next_client nxt s1)
                (my_next_client s) Hwf') as (r & Hr & Htop & _).
    { destruct Hwf as (_ & _ & _ & Hcur). unfold cursor_live in Hcur.
      destruct (my_next_client s) as [n|]; [|done].
      change (n ∈ concat (<[priority_level c := client :: b]>
                            (my_client_list s))).
      rewrite (concat_insert_Permutation _ _ b) by done. by right. }
    rewrite select_next_client_set_next_client, Hsel in Hr.
    injection Hr as <-. unfold cursor_top. simpl.
    destruct nxt; [done|]. apply Htop.
  - intros client Hreg.
    destruct (remove_client_spec s client Hwf Hreg)
      as (c & l1 & l2 & nxt & Hc & Hlt & Hl & Hsel & Hrem & Hwf' & Hnot
          & Hperm).
    eexists. split; [exact Hrem|].
    destruct (select_next_client_top_spec
                (removed (priority_level c) (l1 ++ l2) nxt s)
                (cursor_without client s) Hwf') as (r & Hr & Htop & _).
    { unfold cursor_without.
      destruct (decide (my_next_client s = Some client)) as [|Hne]; [done|].
      destruct Hwf as (_ & _ & _ & Hcur). unfold cursor_live in Hcur.
      destruct (my_next_client s) as [n|]; [|done].
      rewrite Hperm in Hcur. apply elem_of_cons in Hcur as [->|]; done. }
    unfold removed in Hr at 1.
    rewrite select_next_client_set_next_client in Hr.
    change (select_next_client (cursor_without client s)
              (removed (priority_level c) (l1 ++ l2) None s) = Done r) in Hr.
    rewrite Hsel in Hr. injection Hr as <-. unfold cursor_top. simpl.
    destruct nxt; [done|]. apply Htop.
Qed.

Lemma cursor_in_top_bucket_witness :
  (∃ s', insert_client 4%positive (with_fourth arena_A) = Done s' ∧
         cursor_top s') ∧
  (∃ s', remove_client client_A three_clients = Done s' ∧ cursor_top s').
Proof.
  split.
  - refine (proj1 (cursor_in_top_bucket (with_fourth arena_A) _) 4%positive
              {| my_arena := arena_A; my_aba_epoch := 0%Z |} _ _ _).
    + apply (bool_decide_unpack _). vm_compute. reflexivity.
    + vm_compute. reflexivity.
    + vm_compute. lia.
    + apply (bool_decide_unpack _). vm_compute. reflexivity.
  - refine (proj2 (cursor_in_top_bucket three_clients _) client_A _).
    + apply (bool_decide_unpack _). vm_compute. reflexivity.
    + apply (bool_decide_unpack _). vm_compute. reflexivity.
Defined.

(** ** Unregistration and the other clients *)

(** What a successful [try_unregister_client] says about the state it was
    called in and the state it leaves. *)
Lemma try_unregister_client_true_inv s client aba_epoch priority s' :
  wf s → priority < num_priority_levels →
  try_unregister_client client aba_epoch priority s = Done (true, s') →
  ∃ c l1 l2 nxt,
    client_storage s !! client = Some c ∧
    priority_level c = priority ∧
    abandoned aba_epoch c = true ∧
    my_client_list s !! priority = Some (l1 ++ client :: l2) ∧
    s' = unregistered client priority (l1 ++ l2) nxt s ∧
    wf s' ∧ (client ∉ registered s').
Proof.
  intros Hwf Hprio Hrun.
  destruct (lookup_lt_is_Some_2 (my_client_list s) priority) as [b Hb];
    [by rewrite (proj1 Hwf)|].
  pose proof (try_unregister_client_spec s client aba_epoch priority b Hwf Hb)
    as Hspec.
  destruct (decide (client ∈ b)) as [Hin|Hnin];
    [|rewrite Hspec in Hrun; discriminate].
  destruct Hspec as (c & Hc & Hlvl & Hspec).
  destruct (abandoned aba_epoch c) eqn:Hab;
    [|rewrite Hspec in Hrun; discriminate].
  destruct Hspec as (l1 & l2 & nxt & -> & _ & Hrun' & Hwf' & Hnot).
  rewrite Hrun' in Hrun. injection Hrun as <-.
  by exists c, l1, l2, nxt.
Qed.

Lemma filter_ne_absent (client : addr) (l : list addr) :
  client ∉ l → filter (λ q, q ≠ client) l = l.
Proof.
  induction l as [|x l IH]; [done|].
  intros [Hne Hl]%not_elem_of_cons.
  rewrite filter_cons, decide_True by congruence. by rewrite IH.
Qed.

Lemma filter_ne_middle (client : addr) (pre post : list addr) :
  NoDup (pre ++ client :: post) →
  filter (λ q, q ≠ client) (pre ++ client :: post) = pre ++ post.
Proof.
  intros Hnd. apply NoDup_app in Hnd as (_ & Hpre & Hpost).
  apply NoDup_cons in Hpost as [Hpost _].
  rewrite filter_app, filter_cons, decide_False by (intros ?; done).
  rewrite !filter_ne_absent; [done|done|].
  intros Hin. apply (Hpre _ Hin). left.
Qed.

(** The registered clients around one list of the array. *)
Lemma concat_lookup_middle (clients : list (list addr)) lvl b :
  clients !! lvl = Some b →
  concat clients
  = concat (take lvl clients) ++ b ++ concat (drop (S lvl) clients) ∧
  ∀ b', concat (<[lvl := b']> clients)
        = concat (take lvl clients) ++ b' ++ concat (drop (S lvl) clients).
Proof.
  intros Hl. split.
  - rewrite <-(take_drop_middle clients lvl b Hl) at 1.
    by rewrite concat_app, concat_cons.
  - intros b'. rewrite insert_take_drop by (by eapply lookup_lt_Some).
    by rewrite concat_app, concat_cons.
Qed.

(** A successful [try_unregister_client] keeps the invariant, takes the one
    client out of the registered clients, which stay in their order, and
    leaves the objects of all other clients as they are. *)
Theorem try_unregister_client_keeps_others s client aba_epoch priority s' :
  wf s → priority < num_priority_levels →
  try_unregister_client client aba_epoch priority s = Done (true, s') →
  wf s' ∧
  registered s' = filter (λ q, q ≠ client) (registered s) ∧
  ∀ q, q ≠ client → client_storage s' !! q = client_storage s !! q.
Proof.
  intros Hwf Hprio Hrun.
  destruct (try_unregister_client_true_inv _ _ _ _ _ Hwf Hprio Hrun)
    as (c & l1 & l2 & nxt & Hc & Hlvl & Hab & Hl & -> & Hwf' & Hnot).
  split; [done|]. split.
  - destruct (concat_lookup_middle _ _ _ Hl) as [Hall Hins].
    unfold registered. simpl. rewrite Hins.
    pose proof (proj1 (proj2 Hwf)) as Hnd. unfold registered in Hnd.
    rewrite Hall in *.
    set (P := concat (take priority (my_client_list s))) in *.
    set (Q := concat (drop (S priority) (my_client_list s))) in *.
    assert (P ++ (l1 ++ client :: l2) ++ Q
            = (P ++ l1) ++ client :: (l2 ++ Q)) as E
      by (by rewrite <-!app_assoc).
    rewrite E in *. rewrite (filter_ne_middle _ _ _ Hnd).
    by rewrite <-!app_assoc.
  - intros q Hq. simpl. by rewrite lookup_delete_ne.
Qed.

Lemma try_unregister_client_keeps_others_witness :
  wf (unregistered client_C 2 [] (Some client_A) three_clients) ∧
  registered (unregistered client_C 2 [] (Some client_A) three_clients)
  = filter (λ q, q ≠ client_C) (registered three_clients) ∧
  ∀ q, q ≠ client_C →
       client_storage
         (unregistered client_C 2 [] (Some client_A) three_clients) !! q
       = client_storage three_clients !! q.
Proof.
  apply (try_unregister_client_keeps_others three_clients client_C 0%Z 2).
  - apply (bool_decide_unpack _). vm_compute. reflexivity.
  - vm_compute. lia.
  - vm_compute. reflexivity.
Defined.

(** Registering a client and unregistering it again, while nobody refers to
    it and it wants no worker, brings back the lists as they were; the
    object of the client is gone and the epoch counter is the old one plus
    one (modulo 2^64). *)
Theorem register_unregister_round_trip s client c :
  wf s →
  client_storage s !! client = Some c →
  priority_level c < num_priority_levels →
  client ∉ registered s →
  references c = 0 → num_workers_requested c = 0 →
  ∃ s1 s2,
    register_client client s = Done s1 ∧
    try_unregister_client client (get_aba_epoch c) (priority_level c) s1
    = Done (true, s2) ∧
    my_client_list s2 = my_client_list s ∧
    client_storage s2 = delete client (client_storage s) ∧
    my_clients_aba_epoch s2
    = ((my_clients_aba_epoch s + 1) mod 2 ^ 64)%Z ∧
    my_server s2 = my_server s.
Proof.
  intros Hwf Hc Hlvl Hnew Hr Hw.
  destruct (insert_client_spec s client c Hwf Hc Hlvl Hnew)
    as (b & nxt & Hb & _ & Hins & Hwf1).
  eexists. unfold register_client. rewrite Hins.
  set (s1 := set_next_client nxt _) in *.
  assert (my_client_list s1 !! priority_level c = Some (client :: b)) as Hb1.
  { simpl. apply list_lookup_insert_eq. by eapply lookup_lt_Some. }
  pose proof (try_unregister_client_spec s1 client (get_aba_epoch c)
                (priority_level c) _ Hwf1 Hb1) as Hspec.
  rewrite decide_True in Hspec by left.
  destruct Hspec as (c' & Hc' & _ & Hspec). simpl in Hc'.
  rewrite Hc in Hc'. injection Hc' as <-.
  unfold abandoned in Hspec. rewrite Hr, Hw, Z.eqb_refl in Hspec.
  simpl in Hspec.
  destruct Hspec as (l1 & l2 & nxt' & Hsplit & _ & Hrun & _ & Hnot).
  eexists. split; [done|]. split; [exact Hrun|].
  assert (l1 = [] ∧ l2 = b) as [-> ->].
  { destruct l1 as [|x l1]; simpl in Hsplit; [by injection Hsplit as <-|].
    injection Hsplit as <- Hsplit. exfalso. apply Hnot. unfold registered. simpl.
    rewrite list_insert_insert_eq. apply elem_of_concat.
    exists ((client :: l1) ++ l2). split; [|left].
    eapply list_elem_of_lookup_2. apply list_lookup_insert_eq.
    by eapply lookup_lt_Some. }
  simpl. split; [|done].
  by rewrite list_insert_insert_eq, list_insert_id.
Qed.

Lemma register_unregister_round_trip_witness :
  ∃ s1 s2,
    register_client 4%positive (with_fourth arena_C) = Done s1 ∧
    try_unregister_client 4%positive 0%Z 2 s1 = Done (true, s2) ∧
    my_client_list s2 = my_client_list (with_fourth arena_C) ∧
    client_storage s2
    = delete 4%positive (client_storage (with_fourth arena_C)) ∧
    my_clients_aba_epoch s2
    = ((my_clients_aba_epoch (with_fourth arena_C) + 1) mod 2 ^ 64)%Z ∧
    my_server s2 = my_server (with_fourth arena_C).
Proof.
  apply (register_unregister_round_trip (with_fourth arena_C) 4%positive
           {| my_arena := arena_C; my_aba_epoch := 0%Z |}).
  - apply (bool_decide_unpack _). vm_compute. reflexivity.
  - vm_compute. reflexivity.
  - vm_compute. lia.
  - apply (bool_decide_unpack _). vm_compute. reflexivity.
  - reflexivity.
  - reflexivity.
Defined.

(** ** The calls of the controller and of the workers *)

(** The epochs of the client objects are those of a 64-bit counter that has
    reached [my_clients_aba_epoch] at most. *)
Definition epochs_bounded (s : thread_dispatcher) : Prop :=
  (0 ≤ my_clients_aba_epoch s < 2 ^ 64)%Z ∧
  map_Forall (λ _ c, (0 ≤ get_aba_epoch c ≤ my_clients_aba_epoch s)%Z)
    (client_storage s).

#[global] Instance epochs_bounded_dec s : Decision (epochs_bounded s).
Proof. unfold epochs_bounded. apply _. Defined.

(** One call into the dispatcher that returns: the controller creates a
    client, registers a client it has created and not yet registered, or
    tries to unregister a client; a worker asks for a client in need;
    somebody adjusts the job count estimate. *)
Inductive dispatcher_call : thread_dispatcher → thread_dispatcher → Prop :=
| call_create p a s q s' :
    create_client p a s = Done (q, s') →
    dispatcher_call s s'
| call_register client c s s' :
    client_storage s !! client = Some c →
    priority_level c < num_priority_levels →
    client ∉ registered s →
    register_client client s = Done s' →
    dispatcher_call s s'
| call_try_unregister client aba_epoch priority s r s' :
    priority < num_priority_levels →
    try_unregister_client client aba_epoch priority s = Done (r, s') →
    dispatcher_call s s'
| call_client_in_need budget prev s r s' :
    client_in_need budget prev s = Done (r, s') →
    dispatcher_call s s'
| call_adjust delta s :
    dispatcher_call s (adjust_job_count_estimate delta s).

Lemma create_client_Done p a s q s' :
  create_client p a s = Done (q, s') →
  q = p ∧ client_storage s !! p = None ∧
  s' = set_storage
         (<[p := {| my_arena := a;
                    my_aba_epoch := my_clients_aba_epoch s |}]>
            (client_storage s)) s.
Proof.
  unfold create_client. destruct (client_storage s !! p); [done|].
  unfold mret, outcome_ret. by intros [= <- <-].
Qed.

Lemma create_client_wf p a s q s' :
  wf s → create_client p a s = Done (q, s') →
  wf s' ∧ registered s' = registered s.
Proof.
  intros Hwf (-> & Hfree & ->)%create_client_Done. split; [|done].
  apply wf_set_storage; [done|].
  intros u Hu. unfold level_of. rewrite lookup_insert_ne; [done|].
  intros <-. destruct (wf_registered s p Hwf Hu) as (c & _ & Hc & _).
  by rewrite Hfree in Hc.
Qed.

(** [try_join] changes at most the object of the client it is called on, and
    there neither the priority level nor the epoch. *)
Lemma try_join_frame t s joined s' :
  try_join t s = Done (joined, s') →
  ∃ m, s' = set_storage m s ∧
       (∀ u, get_aba_epoch <$> m !! u
             = get_aba_epoch <$> client_storage s !! u) ∧
       (∀ u, references <$> m !! u = references <$> client_storage s !! u).
Proof.
  unfold try_join, deref.
  destruct (client_storage s !! t) as [c|] eqn:Hc; simpl; [|done].
  unfold client_try_join.
  destruct (num_workers_requested c) as [|d]; simpl;
    unfold mret, outcome_ret; intros [= <- <-].
  - exists (client_storage s). by destruct s.
  - eexists. split; [done|].
    split; intros u; (destruct (decide (t = u)) as [<-|Hne];
      [by rewrite lookup_insert_eq, Hc|by rewrite lookup_insert_ne]).
Qed.

Lemma client_in_need_frame budget prev s r s' :
  client_in_need budget prev s = Done (r, s') →
  ∃ m, s' = set_storage m s ∧
       (∀ u, get_aba_epoch <$> m !! u
             = get_aba_epoch <$> client_storage s !! u) ∧
       (∀ u, references <$> m !! u = references <$> client_storage s !! u).
Proof.
  intros Hrun. apply client_in_need_Done in Hrun. destruct r as [t|].
  - by apply try_join_frame in Hrun.
  - subst s'. exists (client_storage s). by destruct s.
Qed.

Lemma client_in_need_wf budget prev s r s' :
  wf s → client_in_need budget prev s = Done (r, s') →
  wf s' ∧ registered s' = registered s.
Proof.
  intros Hwf Hrun. apply client_in_need_Done in Hrun. destruct r as [t|].
  - by apply try_join_wf in Hrun.
  - by subst s'.
Qed.

Lemma try_unregister_client_false s client aba_epoch priority s' :
  wf s → priority < num_priority_levels →
  try_unregister_client client aba_epoch priority s = Done (false, s') →
  s' = s.
Proof.
  intros Hwf Hprio Hrun.
  destruct (lookup_lt_is_Some_2 (my_client_list s) priority) as [b Hb];
    [by rewrite (proj1 Hwf)|].
  pose proof (try_unregister_client_spec s client aba_epoch priority b Hwf Hb)
    as Hspec.
  destruct (decide (client ∈ b)) as [Hin|Hnin];
    [|rewrite Hspec in Hrun; by injection Hrun].
  destruct Hspec as (c & Hc & Hlvl & Hspec).
  destruct (abandoned aba_epoch c);
    [|rewrite Hspec in Hrun; by injection Hrun].
  destruct Hspec as (l1 & l2 & nxt & _ & _ & Hrun' & _).
  rewrite Hrun' in Hrun. discriminate.
Qed.

(** A call keeps the invariant of the registry. *)
Lemma dispatcher_call_wf s s' :
  wf s → dispatcher_call s s' → wf s'.
Proof.
  intros Hwf Hcall.
  destruct Hcall as [p a s q s' Hrun|client c s s' Hc Hlvl Hnew Hrun
                    |client e priority s r s' Hprio Hrun
                    |budget prev s r s' Hrun|delta s].
  - by apply (create_client_wf p a s q s').
  - by apply (register_client_wf s client c s').
  - destruct r.
    + by destruct (try_unregister_client_true_inv _ _ _ _ _ Hwf Hprio Hrun)
        as (c & l1 & l2 & nxt & _ & _ & _ & _ & _ & Hwf' & _).
    + by rewrite (try_unregister_client_false _ _ _ _ _ Hwf Hprio Hrun).
  - by apply (client_in_need_wf budget prev s r s').
  - unfold adjust_job_count_estimate. by destruct (decide (delta ≠ 0%Z)).
Qed.

(** ** Epochs *)

Lemma incr_epoch_small e :
  (0 ≤ e < 2 ^ 64 - 1)%Z → incr_epoch e = (e + 1)%Z.
Proof. intros He. unfold incr_epoch. apply Z.mod_small. lia. Qed.

(** While the counter has not reached its last value, a call keeps the
    epochs of the client objects at or below the counter and moves the
    counter by one at most. *)
Lemma dispatcher_call_epochs s s' :
  wf s → epochs_bounded s →
  (my_clients_aba_epoch s < 2 ^ 64 - 1)%Z →
  dispatcher_call s s' →
  epochs_bounded s' ∧
  (my_clients_aba_epoch s ≤ my_clients_aba_epoch s'
   ≤ my_clients_aba_epoch s + 1)%Z.
Proof.
  intros Hwf [Hcnt Heb] Hlast Hcall.
  destruct Hcall as [p a s q s' Hrun|client c s s' Hc Hlvl Hnew Hrun
                    |client e priority s r s' Hprio Hrun
                    |budget prev s r s' Hrun|delta s].
  - apply create_client_Done in Hrun as (-> & Hfree & ->).
    split; [|simpl; lia]. split; [done|]. simpl.
    apply map_Forall_insert_2; [|done]. unfold get_aba_epoch. simpl. lia.
  - destruct (insert_client_spec s client c Hwf Hc Hlvl Hnew)
      as (b & nxt & _ & _ & Hins & _).
    unfold register_client in Hrun. rewrite Hins in Hrun.
    injection Hrun as <-. split; [done|simpl; lia].
  - destruct r.
    + destruct (try_unregister_client_true_inv _ _ _ _ _ Hwf Hprio Hrun)
        as (c & l1 & l2 & nxt & _ & _ & _ & _ & -> & _ & _).
      unfold epochs_bounded, unregistered, set_storage, set_aba_epoch.
      cbn [my_clients_aba_epoch client_storage].
      rewrite incr_epoch_small by lia. split; [|lia].
      split; [lia|]. apply map_Forall_delete.
      eapply map_Forall_impl; [exact Heb|]. cbn beta. intros _ x. lia.
    + rewrite (try_unregister_client_false _ _ _ _ _ Hwf Hprio Hrun).
      split; [done|lia].
  - apply client_in_need_frame in Hrun as (m & -> & Hepoch & _).
    split; [|simpl; lia]. split; [done|]. simpl.
    intros u c' Hu. specialize (Hepoch u). rewrite Hu in Hepoch.
    destruct (client_storage s !! u) as [c|] eqn:Hc; [|done].
    injection Hepoch as ->. by apply (Heb u c).
  - unfold adjust_job_count_estimate.
    destruct (decide (delta ≠ 0%Z)); (split; [done|simpl; lia]).
Qed.

(** ABA: after a client was unregistered, a new client is created in the
    storage it had and registered; a caller that still holds the old
    pointer and the old epoch is refused by [try_unregister_client], at
    every priority level, the new client stays registered and alive and
    nothing changes. *)
Theorem stale_epoch_is_refused s client aba_epoch priority a s1 s2 s3
    priority' :
  wf s → epochs_bounded s →
  (my_clients_aba_epoch s < 2 ^ 64 - 1)%Z →
  priority < num_priority_levels →
  try_unregister_client client aba_epoch priority s = Done (true, s1) →
  create_client client a s1 = Done (client, s2) →
  arena_priority_level a < num_priority_levels →
  register_client client s2 = Done s3 →
  priority' < num_priority_levels →
  try_unregister_client client aba_epoch priority' s3 = Done (false, s3) ∧
  is_client_alive (Some client) s3 = Done true.
Proof.
  intros Hwf [Hcnt Heb] Hlast Hprio Hun Hcreate Hlvl Hreg Hprio'.
  destruct (try_unregister_client_true_inv _ _ _ _ _ Hwf Hprio Hun)
    as (c & l1 & l2 & nxt & Hc & _ & Hab & _ & Es1 & Hwf1 & Hnot1).
  assert (get_aba_epoch c = aba_epoch) as He.
  { unfold abandoned in Hab. apply andb_prop in Hab as [He _].
    by apply Z.eqb_eq in He. }
  assert (my_clients_aba_epoch s1 = (my_clients_aba_epoch s + 1)%Z) as Hcnt1.
  { rewrite Es1. simpl. apply incr_epoch_small. lia. }
  destruct (create_client_wf _ _ _ _ _ Hwf1 Hcreate) as [Hwf2 Hreg2].
  apply create_client_Done in Hcreate as (_ & Hfree & Es2).
  set (new := {| my_arena := a; my_aba_epoch := my_clients_aba_epoch s1 |})
    in *.
  assert (client_storage s2 !! client = Some new) as Hnew.
  { rewrite Es2. simpl. apply lookup_insert_eq. }
  assert (client ∉ registered s2) as Hnot2 by by rewrite Hreg2.
  destruct (insert_client_spec s2 client new Hwf2 Hnew Hlvl Hnot2)
    as (b & nxt' & Hb & _ & Hins & Hwf3).
  unfold register_client in Hreg. rewrite Hins in Hreg.
  injection Hreg as Es3.
  assert (client_storage s3 !! client = Some new) as Hnew3
    by by rewrite <-Es3.
  split.
  - destruct (lookup_lt_is_Some_2 (my_client_list s3) priority') as [b' Hb'].
    { rewrite <-Es3 in *. by rewrite (proj1 Hwf3). }
    rewrite <-Es3 in Hb'.
    pose proof (try_unregister_client_spec _ client aba_epoch priority' b'
                  Hwf3 Hb') as Hspec.
    rewrite Es3 in Hspec.
    destruct (decide (client ∈ b')); [|done].
    destruct Hspec as (c' & Hc' & _ & Hspec).
    rewrite Hnew3 in Hc'. injection Hc' as <-.
    assert (abandoned aba_epoch new = false) as Hstale.
    { unfold abandoned. apply andb_false_intro1. apply Z.eqb_neq.
      unfold get_aba_epoch at 1. simpl. rewrite Hcnt1, <-He.
      specialize (Heb client c Hc). simpl in Heb. lia. }
    by rewrite Hstale in Hspec.
  - rewrite <-Es3. rewrite is_client_alive_spec by apply Hwf3.
    rewrite bool_decide_eq_true_2; [done|].
    unfold registered. simpl.
    rewrite (concat_insert_Permutation _ _ b) by done. left.
Qed.

(** The three clients after C was unregistered, a new client for the arena
    of B was created in the storage C had, and that client was
    registered. *)
Definition reuse_unregistered : thread_dispatcher :=
  unregistered client_C 2 [] (Some client_A) three_clients.
Definition reuse_created : thread_dispatcher :=
  set_storage
    (<[client_C := {| my_arena := arena_B; my_aba_epoch := 1%Z |}]>
       (client_storage reuse_unregistered)) reuse_unregistered.
Definition reuse_registered : thread_dispatcher :=
  set_next_client (Some client_A)
    (set_client_list
       (<[1 := [client_C; client_B]]> (my_client_list reuse_created))
       reuse_created).

Lemma stale_epoch_is_refused_witness :
  try_unregister_client client_C 0%Z 1 reuse_registered
  = Done (false, reuse_registered) ∧
  is_client_alive (Some client_C) reuse_registered = Done true.
Proof.
  apply (stale_epoch_is_refused three_clients client_C 0%Z 2 arena_B
           reuse_unregistered reuse_created reuse_registered 1).
  - apply (bool_decide_unpack _). vm_compute. reflexivity.
  - apply (bool_decide_unpack _). vm_compute. reflexivity.
  - vm_compute. reflexivity.
  - vm_compute. lia.
  - vm_compute. reflexivity.
  - vm_compute. reflexivity.
  - vm_compute. lia.
  - vm_compute. reflexivity.
  - vm_compute. lia.
Defined.

(** ** What [client_in_need] returns and what it leaves alone *)

Lemma try_join_true_inv t s s' :
  try_join t s = Done (true, s') →
  ∃ c c', client_storage s !! t = Some c ∧
          s' = set_storage (<[t := c']> (client_storage s)) s.
Proof.
  unfold try_join, deref.
  destruct (client_storage s !! t) as [c|] eqn:Hc; simpl; [|done].
  unfold client_try_join.
  destruct (num_workers_requested c) as [|d]; simpl;
    unfold mret, outcome_ret; intros [= <-].
  by eexists c, _.
Qed.

(** A call of [client_in_need] that returns is a reader of the registry: the
    lists, the cursor, the epoch counter and the server are as before, and
    so is the object of every client but the one returned. *)
Theorem client_in_need_reads_registry budget prev s r s' :
  client_in_need budget prev s = Done (r, s') →
  my_client_list s' = my_client_list s ∧
  my_next_client s' = my_next_client s ∧
  my_clients_aba_epoch s' = my_clients_aba_epoch s ∧
  my_server s' = my_server s ∧
  ∀ u, r ≠ Some u → client_storage s' !! u = client_storage s !! u.
Proof.
  intros Hrun. apply client_in_need_Done in Hrun. destruct r as [t|].
  - apply try_join_true_inv in Hrun as (c & c' & Hc & ->). simpl.
    repeat split. intros u Hu. apply lookup_insert_ne. congruence.
  - by subst s'.
Qed.

(** The three clients after A was joined once. *)
Definition three_clients_joined : thread_dispatcher :=
  set_storage
    (<[client_A :=
         {| my_arena := {| arena_priority_level := 0; arena_references := 0;
                           arena_num_workers_requested := 1 |};
            my_aba_epoch := 0%Z |}]> (client_storage three_clients))
    three_clients.

Lemma client_in_need_reads_registry_witness :
  my_client_list three_clients_joined = my_client_list three_clients ∧
  my_next_client three_clients_joined = my_next_client three_clients ∧
  my_clients_aba_epoch three_clients_joined
  = my_clients_aba_epoch three_clients ∧
  my_server three_clients_joined = my_server three_clients ∧
  ∀ u, Some client_A ≠ Some u →
       client_storage three_clients_joined !! u
       = client_storage three_clients !! u.
Proof.
  apply (client_in_need_reads_registry 3 None three_clients (Some client_A)
           three_clients_joined).
  vm_compute. reflexivity.
Defined.

Lemma sum_list_with_zero (f : addr → nat) (l : list addr) :
  sum_list_with f l = 0 → Forall (λ u, f u = 0) l.
Proof.
  induction l as [|x l IH]; simpl; intros H; constructor; [lia|].
  apply IH. lia.
Qed.

(** Under the invariant and with a budget that covers the levels and the
    registered clients, [client_in_need(prev)] returns for every [prev],
    a pointer to a client that no longer exists included.  It returns a
    registered client that had pending demand and has one less now, and it
    returns null only when no registered client has pending demand: a worker
    is never turned away while some client wants one. *)
Theorem client_in_need_finds_demand s prev budget :
  wf s →
  num_priority_levels ≤ budget →
  length (registered s) ≤ budget →
  ∃ r s',
    client_in_need budget prev s = Done (r, s') ∧
    match r with
    | Some t =>
        t ∈ registered s ∧ 0 < demand s t ∧ demand s' t + 1 = demand s t
    | None => s' = s ∧ Forall (λ u, demand s u = 0) (registered s)
    end.
Proof.
  intros Hwf Hbudget Hlen.
  destruct (client_in_need_returns s prev budget Hwf Hbudget Hlen)
    as (r & s' & Hrun & _ & _ & Hr).
  exists r, s'. split; [done|]. destruct r as [t|].
  - destruct Hr as [Ht _]. split; [done|].
    apply client_in_need_Done, try_join_Done in Hrun as (Hd & _). lia.
  - destruct Hr as [-> Hzero]. split; [done|].
    by apply sum_list_with_zero.
Qed.

Lemma client_in_need_finds_demand_witness :
  ∃ r s',
    client_in_need 3 (Some 9%positive) three_clients = Done (r, s') ∧
    match r with
    | Some t =>
        t ∈ registered three_clients ∧ 0 < demand three_clients t ∧
        demand s' t + 1 = demand three_clients t
    | None =>
        s' = three_clients ∧
        Forall (λ u, demand three_clients u = 0) (registered three_clients)
    end.
Proof.
  apply (client_in_need_finds_demand three_clients (Some 9%positive) 3).
  - apply (bool_decide_unpack _). vm_compute. reflexivity.
  - vm_compute. lia.
  - vm_compute. lia.
Defined.



(** ** The level loop of the scan *)

(** With no client in any list the loop that looks for the next non-empty
    level never leaves, whatever level it starts from and whatever the
    budget: the scan must not be entered on an empty registry. *)
Theorem next_nonempty_level_never_leaves_empty fuel lvl :
  next_nonempty_level fuel [[]; []; []] lvl = Timeout.
Proof.
  revert lvl. induction fuel as [|fuel IH]; intros lvl; [done|].
  rewrite next_nonempty_level_S.
  assert ((lvl + 1) mod num_priority_levels < 3) as Hlt
    by (apply Nat.mod_upper_bound; done).
  destruct ((lvl + 1) mod num_priority_levels) as [|[|[|n]]] eqn:E;
    [| | |lia]; simpl; apply IH.
Qed.

(** Closes a case of the theorem below with the number [k] of levels the
    loop moves on. *)
Ltac nearest_level k :=
  exists k; split; [lia|]; split; [reflexivity|];
  split; [by eexists _, _|];
  let j := fresh "j" in
  let Hj := fresh "Hj" in
  intros j Hj; destruct j as [|[|[|j]]]; try lia; reflexivity.

(** With a client in some list the loop leaves after at most
    [num_priority_levels] iterations, at the nearest non-empty level after
    the one it started from, in cyclic order; this is the starting level
    itself when no other level holds a client. *)
Theorem next_nonempty_level_nearest budget b0 b1 b2 lvl :
  num_priority_levels ≤ budget →
  lvl < num_priority_levels →
  b0 ++ b1 ++ b2 ≠ [] →
  ∃ k, 1 ≤ k ≤ num_priority_levels ∧
       next_nonempty_level budget [b0; b1; b2] lvl
       = Done ((lvl + k) mod num_priority_levels) ∧
       (∃ c rest, [b0; b1; b2] !! ((lvl + k) mod num_priority_levels)
                  = Some (c :: rest)) ∧
       ∀ j, 1 ≤ j < k →
            [b0; b1; b2] !! ((lvl + j) mod num_priority_levels) = Some [].
Proof.
  unfold num_priority_levels. intros Hbudget Hlvl Hne.
  destruct budget as [|[|[|budget]]]; [lia..|].
  destruct lvl as [|[|[|lvl]]]; [| | |lia];
    destruct b0 as [|x0 b0], b1 as [|x1 b1], b2 as [|x2 b2]; try done;
    first [nearest_level 1 | nearest_level 2 | nearest_level 3].
Qed.

Lemma next_nonempty_level_nearest_witness :
  ∃ k, 1 ≤ k ≤ num_priority_levels ∧
       next_nonempty_level 3 [[client_A]; []; []] 0
       = Done ((0 + k) mod num_priority_levels) ∧
       (∃ c rest, [[client_A]; []; []] !! ((0 + k) mod num_priority_levels)
                  = Some (c :: rest)) ∧
       ∀ j, 1 ≤ j < k →
            [[client_A]; []; []] !! ((0 + j) mod num_priority_levels)
            = Some [].
Proof.
  apply (next_nonempty_level_nearest 3 [client_A] [] [] 0).
  - vm_compute. lia.
  - vm_compute. lia.
  - discriminate.
Defined.

(** ** The job count estimate *)

(** Of a sequence of calls of [adjust_job_count_estimate] the server
    receives the deltas that are not zero, in the order of the calls, and
    nothing else; the registry is not touched. *)
Theorem adjust_job_count_estimate_sequence deltas : ∀ s,
  my_server (foldl (λ s delta, adjust_job_count_estimate delta s) s deltas)
  = reverse (filter (λ delta, delta ≠ 0%Z) deltas) ++ my_server s ∧
  set_server (my_server s)
    (foldl (λ s delta, adjust_job_count_estimate delta s) s deltas) = s.
Proof.
  induction deltas as [|delta deltas IH]; intros s; simpl.
  - split; [done|]. by destruct s.
  - destruct (IH (adjust_job_count_estimate delta s)) as [Hsrv Hrest].
    rewrite Hsrv. rewrite filter_cons. unfold adjust_job_count_estimate in *.
    destruct (decide (delta ≠ 0%Z)).
    + rewrite reverse_cons, <-app_assoc. split; [done|].
      simpl in Hrest.
      apply (f_equal (set_server (my_server s))) in Hrest.
      by destruct s.
    + done.
Qed.

(** ** A worker that is left alone *)

Lemma process_quiescent_returns_witness :
  ∃ td' s' served,
    process (λ _ s, s) (λ s, s) 4 {| my_last_client := Some 9%positive |}
      three_clients
    = Done (td', s', (EvProcess <$> served) ++ [EvYield]) ∧
    length served = total_demand three_clients.
Proof.
  apply (process_quiescent_returns 4 {| my_last_client := Some 9%positive |}
           three_clients).
  - apply (bool_decide_unpack _). vm_compute. reflexivity.
  - vm_compute. lia.
  - vm_compute. lia.
  - vm_compute. lia.
Defined.

(** ** Pointers that [try_unregister_client] does not find *)

(** [try_unregister_client] reads the client only after it has found the
    pointer in the list of the level it was given: for a pointer that is
    not registered (a dangling one too), and for a registered client of
    another level than [priority], even one that nobody refers to, it
    returns false and changes nothing. *)
Theorem try_unregister_client_not_found s client aba_epoch priority :
  wf s → priority < num_priority_levels →
  client ∉ registered s ∨
  (∃ lvl, level_of s client = Some lvl ∧ lvl ≠ priority) →
  try_unregister_client client aba_epoch priority s = Done (false, s).
Proof.
  intros Hwf Hprio Hwhy.
  destruct (lookup_lt_is_Some_2 (my_client_list s) priority) as [b Hb];
    [by rewrite (proj1 Hwf)|].
  pose proof (try_unregister_client_spec s client aba_epoch priority b Hwf Hb)
    as Hspec.
  destruct (decide (client ∈ b)) as [Hin|Hnin]; [|done].
  exfalso. destruct Hwhy as [Hnot|(lvl & Hlvl & Hne)].
  - apply Hnot. by eapply elem_of_bucket_registered.
  - pose proof (wf_bucket_stored s priority b Hwf Hb) as Hst.
    rewrite Forall_forall in Hst. specialize (Hst client Hin). congruence.
Qed.

Lemma try_unregister_client_not_found_witness :
  try_unregister_client client_C 0%Z 1 three_clients
  = Done (false, three_clients).
Proof.
  apply (try_unregister_client_not_found three_clients client_C 0%Z 1).
  - apply (bool_decide_unpack _). vm_compute. reflexivity.
  - vm_compute. lia.
  - right. exists 2. split; [vm_compute; reflexivity|lia].
Defined.

(** ** Demand and the runs of [process] *)

#[global] Instance event_eq_dec : EqDecision event.
Proof. solve_decision. Defined.

Lemma pass_run_demand budget client td s served td' s' :
  pass_run (λ _ s, s) budget client td s served td' s' →
  ∀ c, demand s c = demand s' c + length (filter (λ t, t = c) served).
Proof.
  induction 1 as [client td s s' Hcall
                 |client td s t s1 served td' s' Hcall Hrun IH]; intros c.
  - apply client_in_need_Done in Hcall. subst s'. simpl. lia.
  - apply client_in_need_Done, try_join_Done in Hcall as (Hd & Hother & _).
    rewrite filter_cons. specialize (IH c).
    destruct (decide (t = c)) as [->|Hne]; simpl.
    + lia.
    + rewrite <-(Hother c) by congruence. lia.
Qed.

(** For a worker that is left alone (the client's [process] and [yield]
    change nothing the dispatcher sees), every run of a client's [process]
    during one [process] of the worker is paid for with one unit of that
    client's pending demand: the demand of each client goes down by the
    number of times the worker served it. *)
Theorem process_serves_demand budget td s td' s' evs :
  process (λ _ s, s) (λ s, s) budget td s = Done (td', s', evs) →
  ∀ c, demand s c
       = demand s' c + length (filter (λ ev, ev = EvProcess c) evs).
Proof.
  rewrite process_unfold. intros H c.
  bind_inv H. destruct a as [[td1 s1] evs1].
  bind_inv H. destruct a as [[td2 s2] evs2]. simplify_eq.
  apply process_while_pass_run in Hrun as (pass1 & Hp1 & -> & _).
  apply process_while_pass_run in Hrun0 as (pass2 & Hp2 & -> & _).
  rewrite (pass_run_demand _ _ _ _ _ _ _ Hp1 c).
  rewrite (pass_run_demand _ _ _ _ _ _ _ Hp2 c).
  rewrite filter_app, filter_cons, decide_False by done.
  rewrite length_app.
  assert (∀ l : list addr,
            length (filter (λ ev, ev = EvProcess c) (EvProcess <$> l))
            = length (filter (λ t, t = c) l)) as Hcount.
  { induction l as [|t l IH]; [done|].
    rewrite fmap_cons, !filter_cons.
    destruct (decide (t = c)) as [->|Hne].
    - rewrite decide_True by done. simpl. by rewrite IH.
    - rewrite decide_False by congruence. done. }
  rewrite !Hcount. lia.
Qed.

Lemma process_serves_demand_witness :
  demand three_clients client_A
  = demand three_clients_served client_A
    + length (filter (λ ev, ev = EvProcess client_A)
                [EvProcess client_A; EvProcess client_A;
                 EvProcess client_B; EvYield]).
Proof.
  apply (process_serves_demand 4 {| my_last_client := None |} three_clients
           {| my_last_client := Some client_B |} three_clients_served).
  vm_compute. reflexivity.
Defined.

(** ** Sequences of calls *)

(** Every sequence of calls that return keeps the invariant of the registry:
    it holds in every state that the controller and the workers reach from
    a state in which it holds, the freshly constructed dispatcher for
    one. *)
Theorem dispatcher_calls_keep_invariant s s' :
  wf s → rtc dispatcher_call s s' → wf s'.
Proof.
  intros Hwf Hcalls. induction Hcalls as [|s s1 s' Hcall _ IH]; [done|].
  apply IH. by apply (dispatcher_call_wf s).
Qed.

Lemma dispatcher_calls_keep_invariant_witness : wf reuse_registered.
Proof.
  apply (dispatcher_calls_keep_invariant three_clients).
  - apply (bool_decide_unpack _). vm_compute. reflexivity.
  - apply (rtc_l _ _ reuse_unregistered).
    { apply (call_try_unregister client_C 0%Z 2 three_clients true).
      - vm_compute. lia.
      - vm_compute. reflexivity. }
    apply (rtc_l _ _ reuse_created).
    { apply (call_create client_C arena_B reuse_unregistered client_C).
      vm_compute. reflexivity. }
    apply rtc_once.
    apply (call_register client_C
             {| my_arena := arena_B; my_aba_epoch := 1%Z |}).
    + vm_compute. reflexivity.
    + vm_compute. lia.
    + apply (bool_decide_unpack _). vm_compute. reflexivity.
    + vm_compute. reflexivity.
Defined.

(** Over [n] calls that return, the epoch counter goes up by [n] at most
    (only a successful [try_unregister_client] moves it, by one), and as
    long as it cannot wrap around the epoch of every client object stays at
    or below it. *)
Theorem dispatcher_calls_keep_epochs n : ∀ s s',
  wf s → epochs_bounded s →
  (my_clients_aba_epoch s + Z.of_nat n < 2 ^ 64)%Z →
  nsteps dispatcher_call n s s' →
  epochs_bounded s' ∧
  (my_clients_aba_epoch s ≤ my_clients_aba_epoch s'
   ≤ my_clients_aba_epoch s + Z.of_nat n)%Z.
Proof.
  induction n as [|n IH]; intros s s' Hwf Heb Hbound Hcalls.
  - inversion Hcalls; subst. split; [done|lia].
  - inversion Hcalls as [|? ? s1 ? Hcall Hrest]; subst.
    destruct (dispatcher_call_epochs s s1 Hwf Heb ltac:(lia) Hcall)
      as [Heb1 Hcnt1].
    destruct (IH s1 s' (dispatcher_call_wf _ _ Hwf Hcall) Heb1 ltac:(lia)
                Hrest) as [Heb' Hcnt'].
    split; [done|lia].
Qed.

Lemma dispatcher_calls_keep_epochs_witness :
  epochs_bounded reuse_created ∧
  (my_clients_aba_epoch three_clients ≤ my_clients_aba_epoch reuse_created
   ≤ my_clients_aba_epoch three_clients + Z.of_nat 2)%Z.
Proof.
  apply (dispatcher_calls_keep_epochs 2 three_clients reuse_created).
  - apply (bool_decide_unpack _). vm_compute. reflexivity.
  - apply (bool_decide_unpack _). vm_compute. reflexivity.
  - vm_compute. reflexivity.
  - apply (nsteps_l _ _ _ reuse_unregistered).
    { apply (call_try_unregister client_C 0%Z 2 three_clients true).
      - vm_compute. lia.
      - vm_compute. reflexivity. }
    apply nsteps_once.
    apply (call_create client_C arena_B reuse_unregistered client_C).
    vm_compute. reflexivity.
Defined.
